(** * gammapy: the sampler interface and the seeded spectrum simulation

    A shallow embedding of [gammapy/modeling/sampler.py] (the classes
    [Sampler], [SamplerResult] and [SamplerLikelihood]) and of the
    simulation object exercised by
    [gammapy/spectrum/tests/test_simulation.py].

    Python objects that are mutated through aliases (the [Parameter]
    objects reached both through [models.parameters] and through
    [free_parameters]) live in a store indexed by object identity; code
    that can raise runs in a state-and-exception monad in which the store
    survives an exception, as it does in Python. *)

From Stdlib Require Import QArith.
From stdpp Require Import gmap strings list fin_maps.

Close Scope Q_scope.
Open Scope string_scope.

(** ** Scalars

    The floating-point numbers of the source are kept abstract: a type
    with the arithmetic operations the code applies to them.  Laws of
    exact arithmetic are stated as hypotheses where a property needs
    them. *)

Class Scalar (R : Type) := {
  s_zero : R;
  s_one : R;
  s_add : R -> R -> R;
  s_sub : R -> R -> R;
  s_mul : R -> R -> R;
  s_div : R -> R -> R;
  s_of_nat : nat -> R;
  (** the literal [-0.5] of [SamplerLikelihood.fcn] *)
  s_neg_half : R
}.

#[export] Instance Q_scalar : Scalar Q := {|
  s_zero := 0%Q;
  s_one := 1%Q;
  s_add := Qplus;
  s_sub := Qminus;
  s_mul := Qmult;
  s_div := Qdiv;
  s_of_nat := fun n => inject_Z (Z.of_nat n);
  s_neg_half := (-1 # 2)%Q
|}.

(** ** Exceptions and the state-and-exception monad *)

Inductive exn : Type :=
| ValueError (msg : string)
| IndexError
| AttributeError
| KeyError (key : string)
| UnboundLocalError (var : string)
| ConfigurationError (msg : string).

Inductive result (A : Type) : Type :=
| Ok (a : A)
| Raise (e : exn).
Arguments Ok {A} a.
Arguments Raise {A} e.

(** A computation over a state [S]: the state is returned also when the
    computation raises. *)
Definition M (S A : Type) : Type := S -> result A * S.

Definition ret {S A} (a : A) : M S A := fun s => (Ok a, s).
Definition raise {S A} (e : exn) : M S A := fun s => (Raise e, s).
Definition bind {S A B} (c : M S A) (k : A -> M S B) : M S B :=
  fun s => match c s with
           | (Ok a, s') => k a s'
           | (Raise e, s') => (Raise e, s')
           end.
Definition get {S} : M S S := fun s => (Ok s, s).
Definition modify {S} (f : S -> S) : M S unit := fun s => (Ok tt, f s).
Definition lift_result {S A} (r : result A) : M S A := fun s => (r, s).

Notation "'do' x <- c ; k" := (bind c (fun x => k))
  (at level 10, x name, c at level 100, k at level 200).
Notation "c ;;; k" := (bind c (fun _ => k))
  (at level 100, k at level 200, right associativity).

(** Object identities. *)
Abbreviation loc := positive (only parsing).

(** The values of the options dictionary. *)
Inductive pyval : Type :=
| PyNone
| PyBool (b : bool)
| PyInt (n : Z)
| PyFloat (q : Q)
| PyStr (s : string).

(** Python's truth value of an option, as [if opts["step_sampler"]:] takes it. *)
Definition truthy (v : pyval) : bool :=
  match v with
  | PyNone => false
  | PyBool b => b
  | PyInt n => negb (n =? 0)%Z
  | PyFloat q => negb (Qeq_bool q 0)
  | PyStr s => match s with EmptyString => false | _ => true end
  end.

(** [d[key]] *)
Definition getitem {S} (d : gmap string pyval) (key : string) : M S pyval :=
  match d !! key with
  | Some v => ret v
  | None => raise (KeyError key)
  end.

(** The results of a function over a list, in order, up to the first
    exception. *)
Fixpoint collect {A B} (f : A -> result B) (l : list A) : result (list B) :=
  match l with
  | [] => Ok []
  | x :: l' =>
      match f x with
      | Ok y => match collect f l' with
                | Ok ys => Ok (y :: ys)
                | Raise e => Raise e
                end
      | Raise e => Raise e
      end
  end.

Section Model.
Context {R : Type} `{Scalar R}.

(** ** Parameters, models, covariance *)

(** A prior exposes its inverse cumulative distribution function. *)
Record Prior := { _inverse_cdf : R -> R }.

(** Modelled from the spec: the [Parameter] class (gammapy/modeling/parameter.py
    is not part of the sources): name, current value, error, optional prior;
    a free parameter is one that is not frozen. *)
Record ParameterObj := {
  par_name : string;
  par_value : R;
  par_error : R;
  par_frozen : bool;
  par_prior : option Prior
}.

Definition set_value (v : R) (p : ParameterObj) : ParameterObj :=
  {| par_name := par_name p; par_value := v; par_error := par_error p;
     par_frozen := par_frozen p; par_prior := par_prior p |}.

Definition set_error (e : R) (p : ParameterObj) : ParameterObj :=
  {| par_name := par_name p; par_value := par_value p; par_error := e;
     par_frozen := par_frozen p; par_prior := par_prior p |}.

(** The object store: [Parameter] objects by identity.  A [Parameters]
    collection is the list of the identities of its members, in order. *)
#[local] Abbreviation heap := (gmap positive ParameterObj).

Definition is_free (h : heap) (l : loc) : bool :=
  match h !! l with
  | Some p => negb (par_frozen p)
  | None => false
  end.

(** Modelled from the spec: [Parameters.free_parameters], the ordered
    free-parameter view (the collection's order is kept). *)
Definition free_parameters (h : heap) (ps : list loc) : list loc :=
  filter (fun l => is_free h l = true) ps.

(** A two-dimensional [numpy.ndarray]: its shape and its rows. *)
Record ndarray := {
  shape0 : nat;
  shape1 : nat;
  items : list (list R)
}.

Definition well_shaped (a : ndarray) : Prop :=
  length (items a) = shape0 a /\
  Forall (fun r => length r = shape1 a) (items a).

Definition entry (a : ndarray) (i j : nat) : R :=
  match items a !! i with
  | Some r => default s_zero (r !! j)
  | None => s_zero
  end.

(** [a.T] *)
Definition T (a : ndarray) : ndarray :=
  {| shape0 := shape1 a;
     shape1 := shape0 a;
     items := fmap (fun j => fmap (fun r => default s_zero (r !! j)) (items a))
                  (seq 0 (shape1 a)) |}.

Definition sum_list (r : list R) : R := foldl s_add s_zero r.

Definition dot (x y : list R) : R := sum_list (zip_with s_mul x y).

(** [numpy.cov(m)] with its default arguments ([rowvar=True], [bias=False],
    [ddof=None]): each row of [m] is a variable, each column an
    observation.  Following numpy: the row averages are subtracted, the
    centred matrix is multiplied with its transpose and the product is
    scaled by [1 / fact], [fact = m.shape[1] - 1] (and [0.0] when that is
    not positive); [centred] is the matrix after [X -= avg[:, None]].  The
    closing [squeeze()] only drops axes of length one
    from the shape and leaves the entries as they are; it is not
    modelled. *)
Definition centred (m : ndarray) : list (list R) :=
  fmap (fun r =>
          let avg := s_div (sum_list r) (s_of_nat (shape1 m)) in
          fmap (fun x => s_sub x avg) r) (items m).

Definition np_cov (m : ndarray) : ndarray :=
  if decide (shape0 m = 0) then {| shape0 := 0; shape1 := 0; items := [] |}
  else
    let fact := s_of_nat (shape1 m - 1) in
    let X := centred m in
    let c := fmap (fun ri => fmap (fun rj => dot ri rj) X) X in
    {| shape0 := shape0 m;
       shape1 := shape0 m;
       items := fmap (fmap (fun x => s_mul x (s_div s_one fact))) c |}.

(** The sample covariance as the specification words it: the rows of the
    sample matrix are the draws, the columns the parameters; the unbiased
    estimator divides the sum of the products of the deviations from the
    column means by the number of draws minus one. *)
Definition sample_mean (S : ndarray) (i : nat) : R :=
  s_div (foldl (fun acc k => s_add acc (entry S k i)) s_zero (seq 0 (shape0 S)))
        (s_of_nat (shape0 S)).

Definition sample_covariance (S : ndarray) (i j : nat) : R :=
  s_div
    (foldl (fun acc k =>
              s_add acc (s_mul (s_sub (entry S k i) (sample_mean S i))
                               (s_sub (entry S k j) (sample_mean S j))))
           s_zero (seq 0 (shape0 S)))
    (s_of_nat (shape0 S - 1)).

Record Covariance := {
  cov_parameters : list loc;
  cov_data : ndarray
}.

(** Modelled from the spec: [Covariance.from_factor_matrix]
    (gammapy/modeling/covariance.py is not part of the sources): the
    covariance object holds the matrix derived from the samples, indexed
    by the parameters it is built for. *)
Definition from_factor_matrix (parameters : list loc) (matrix : ndarray)
  : Covariance :=
  {| cov_parameters := parameters; cov_data := matrix |}.

(** The model set: its parameters and the covariance attached to it. *)
Record Models := {
  m_parameters : list loc;
  m_covariance : option Covariance
}.

(** The model set with another covariance in its covariance field; the
    assignment [models.covariance = covariance] itself, which runs a
    setter, is [covariance_setter] below. *)
Definition set_covariance (c : Covariance) (m : Models) : Models :=
  {| m_parameters := m_parameters m; m_covariance := Some c |}.

(** The setter behind [models.covariance = covariance] belongs to the
    model classes (gammapy/modeling/models), which are not part of the
    sources.  Besides storing the covariance it rewrites the errors of
    parameters with errors it derives from the covariance; which objects
    it gives an error, and which one, is a parameter of the development
    (a setter that rewrites no error is the instance that answers [None]
    throughout). *)
Class CovarianceSetter := {
  covariance_error : Models -> Covariance -> heap -> loc -> option R
}.

Context `{CovarianceSetter}.

(** The store after the setter has written its errors. *)
Definition write_errors (models : Models) (covariance : Covariance) (h : heap)
  : heap :=
  map_imap (fun l p =>
              Some (match covariance_error models covariance h l with
                    | Some e => set_error e p
                    | None => p
                    end)) h.

(** [models.covariance = covariance] *)
Definition covariance_setter (covariance : Covariance) (models : Models)
  : M heap Models :=
  modify (write_errors models covariance) ;;;
  ret (set_covariance covariance models).

(** ** The result dictionary of the engine

    The keys the source reads: ["ncall"],
    ["insertion_order_MWW_test"]["converged"], ["posterior"]["mean"],
    ["posterior"]["stdev"] and ["samples"]. *)
Record UltranestResult := {
  ur_ncall : nat;
  ur_converged : bool;
  ur_posterior_mean : list R;
  ur_posterior_stdev : list R;
  ur_samples : ndarray
}.

(** ** [Sampler._update_models] *)

(** The loop [for i, par in enumerate(free_parameters)]: indexing a
    posterior array past its end raises [IndexError]; what was assigned
    before stays assigned. *)
Fixpoint update_loop (i : nat) (pars : list loc) (mean stdev : list R)
  : M heap unit :=
  match pars with
  | [] => ret tt
  | par :: rest =>
      do m <- lift_result (match mean !! i with
                           | Some m => Ok m
                           | None => Raise IndexError
                           end);
      modify (alter (set_value m) par) ;;;
      do s <- lift_result (match stdev !! i with
                           | Some s => Ok s
                           | None => Raise IndexError
                           end);
      modify (alter (set_error s) par) ;;;
      update_loop (S i) rest mean stdev
  end.

Definition _update_models (models : Models) (results : UltranestResult)
  : M heap Models :=
  let samples := ur_samples results in
  do h <- get;
  update_loop 0 (free_parameters h (m_parameters models))
              (ur_posterior_mean results) (ur_posterior_stdev results) ;;;
  let covariance :=
    from_factor_matrix (m_parameters models) (np_cov (T samples)) in
  covariance_setter covariance models.

(** ** [SamplerLikelihood] *)

Record SamplerLikelihood := {
  function : heap -> R;
  parameters : list loc
}.

(** Modelled from the spec: the setter behind [parameters.value = value]
    (gammapy/modeling/parameter.py is not part of the sources), the
    vectorized value assignment of the parameter collection: the values go
    to the parameters position by position. *)
Fixpoint assign_values (ps : list loc) (vs : list R) (h : heap) : heap :=
  match ps, vs with
  | p :: ps', v :: vs' => assign_values ps' vs' (alter (set_value v) p h)
  | _, _ => h
  end.

Definition fcn (self : SamplerLikelihood) (value : list R) : M heap R :=
  modify (assign_values (parameters self) value) ;;;
  do h <- get;
  let total_stat := s_mul s_neg_half (function self h) in
  ret total_stat.

(** ** The external engine

    The nested-sampling library is not part of the program.  Whatever it
    does, it reaches the program only through the two callables it is
    given, so a call into the library is a finite tree of callbacks: each
    node asks for the transform of a unit-cube point or for the likelihood
    of a point and goes on with the answer.  An exception raised by a
    callback ends the call with that exception. *)
Inductive engine (A : Type) : Type :=
| Return (a : A)
| Throw (e : exn)
| Transform (u : list R) (k : list R -> engine A)
| Loglike (p : list R) (k : R -> engine A).
Arguments Return {A} a.
Arguments Throw {A} e.
Arguments Transform {A} u k.
Arguments Loglike {A} p k.

(** The three entry points of the library the source uses:
    [ultranest.ReactiveNestedSampler(names, loglike, transform=, log_dir=,
    resume=)], the assignment of a
    [ultranest.stepsampler.SliceSampler(nsteps=, ...)] to the sampler's
    [stepsampler], and [sampler.run(min_num_live_points=, frac_remain=)]. *)
Class Ultranest (handle : Type) := {
  ReactiveNestedSampler : list string -> pyval -> pyval -> engine handle;
  SliceSampler : pyval -> handle -> handle;
  sampler_run : handle -> pyval -> pyval -> engine UltranestResult
}.

Context {handle : Type} `{Ultranest handle}.

(** ** [Sampler] and [SamplerResult] *)

Record Sampler := {
  backend : string;
  sampler_opts : gmap string pyval
}.

(** Modelled from the spec: what [models.copy()] keeps
    (gammapy/modeling/models is not part of the sources): the model set at
    the time of completion, its parameters by value. *)
Record ModelsCopy := {
  mc_parameters : list (option ParameterObj);
  mc_covariance : option Covariance
}.

Definition models_copy (h : heap) (m : Models) : ModelsCopy :=
  {| mc_parameters := fmap (fun l => h !! l) (m_parameters m);
     mc_covariance := m_covariance m |}.

Record SamplerResult := {
  nfev : nat;
  success : bool;
  models : option ModelsCopy;
  samples : option ndarray;
  sampler_results : option UltranestResult
}.

(** [result.models = ...] *)
Definition set_models (m : ModelsCopy) (r : SamplerResult) : SamplerResult :=
  {| nfev := nfev r; success := success r; models := Some m;
     samples := samples r; sampler_results := sampler_results r |}.

(** The mutable objects of a run: the parameter objects, the attribute
    [self._sampler], the model set of the datasets ([datasets.models]),
    and, as a ghost record, the points at which the likelihood callable
    was evaluated, latest first. *)
Record state := {
  st_heap : heap;
  _sampler : option handle;
  st_models : Models;
  st_loglike_calls : list (list R)
}.

Definition with_heap {A} (c : M heap A) : M state A :=
  fun st =>
    let '(r, h) := c (st_heap st) in
    (r, {| st_heap := h; _sampler := _sampler st; st_models := st_models st;
           st_loglike_calls := st_loglike_calls st |}).

Definition set_sampler (s : handle) : M state unit :=
  modify (fun st =>
    {| st_heap := st_heap st; _sampler := Some s; st_models := st_models st;
       st_loglike_calls := st_loglike_calls st |}).

Definition set_st_models (m : Models) : M state unit :=
  modify (fun st =>
    {| st_heap := st_heap st; _sampler := _sampler st; st_models := m;
       st_loglike_calls := st_loglike_calls st |}).

Definition log_loglike_call (p : list R) : M state unit :=
  modify (fun st =>
    {| st_heap := st_heap st; _sampler := _sampler st;
       st_models := st_models st;
       st_loglike_calls := p :: st_loglike_calls st |}).

(** A call into the library, run against the two callables. *)
Fixpoint interp {A} (transform : list R -> M state (list R))
    (loglike : list R -> M state R) (t : engine A) : M state A :=
  match t with
  | Return a => ret a
  | Throw e => raise e
  | Transform u k =>
      do p <- transform u;
      interp transform loglike (k p)
  | Loglike p k =>
      log_loglike_call p ;;;
      do l <- loglike p;
      interp transform loglike (k l)
  end.

(** The six default options of the ["ultranest"] backend. *)
Definition ultranest_default_opts : gmap string pyval :=
  <["live_points" := PyInt 200]>
  (<["frac_remain" := PyFloat (1 # 2)]>
  (<["log_dir" := PyNone]>
  (<["resume" := PyStr "subfolder"]>
  (<["step_sampler" := PyBool false]>
  (<["nsteps" := PyInt 20]> ∅))))).

(** [Sampler.__init__]: [default_opts] is bound in the ["ultranest"]
    branch only, and read after it.  The attribute [_sampler], [None] at
    first, is kept in the state of a run. *)
Definition __init__ (backend : string)
    (sampler_opts : option (gmap string pyval)) : result Sampler :=
  let default_opts :=
    if decide (backend = "ultranest") then Some ultranest_default_opts
    else None in
  match default_opts with
  | None => Raise (UnboundLocalError "default_opts")
  | Some default_opts =>
      Ok {| backend := backend;
            sampler_opts := match sampler_opts with
                            | Some opts => opts ∪ default_opts
                            | None => default_opts
                            end |}
  end.

Definition missing_prior_message : string :=
  "Some parameters have no prior set. You need priors on all parameters.".

(** [par.prior._inverse_cdf(val)] for a member [par] of the sequence:
    [None] has no attribute [prior], and a prior that is [None] has no
    attribute [_inverse_cdf]. *)
Definition prior_inverse_cdf_of (h : heap) (par : option loc) (val : R)
  : result R :=
  match par with
  | Some l =>
      match h !! l with
      | Some {| par_prior := Some prior |} => Ok (_inverse_cdf prior val)
      | _ => Raise AttributeError
      end
  | None => Raise AttributeError
  end.

Fixpoint transform_each (h : heap) (pars : list (option loc)) (values : list R)
  : result (list R) :=
  match pars, values with
  | par :: pars', val :: values' =>
      match prior_inverse_cdf_of h par val with
      | Ok x => match transform_each h pars' values' with
                | Ok xs => Ok (x :: xs)
                | Raise e => Raise e
                end
      | Raise e => Raise e
      end
  | _, _ => Ok []
  end.

(** The closure [_prior_inverse_cdf] of [sampler_ultranest]; [parameters]
    is the sequence the method was called with, whose members are
    parameter objects or [None]. *)
Definition _prior_inverse_cdf (parameters : list (option loc))
    (values : list R) : M heap (list R) :=
  if bool_decide (None ∈ parameters) then
    raise (ValueError missing_prior_message)
  else
    do h <- get;
    lift_result (transform_each h parameters values).

(** Modelled from the spec: [parameters.names]
    (gammapy/modeling/parameter.py is not part of the sources), the names
    of the members in order. *)
Definition names (h : heap) (parameters : list (option loc)) : list string :=
  omap (fun par => match par with
                   | Some l => par_name <$> h !! l
                   | None => None
                   end) parameters.

Definition sampler_ultranest (self : Sampler)
    (parameters : list (option loc)) (like : SamplerLikelihood)
  : M state UltranestResult :=
  let transform := fun values => with_heap (_prior_inverse_cdf parameters values) in
  let loglike := fun value => with_heap (fcn like value) in
  do st <- get;
  do log_dir <- getitem (sampler_opts self) "log_dir";
  do resume <- getitem (sampler_opts self) "resume";
  do sampler <- interp transform loglike
                  (ReactiveNestedSampler (names (st_heap st) parameters)
                                         log_dir resume);
  set_sampler sampler ;;;
  do step_sampler <- getitem (sampler_opts self) "step_sampler";
  do sampler <-
    (if truthy step_sampler then
       do nsteps <- getitem (sampler_opts self) "step_sampler";
       let sampler := SliceSampler nsteps sampler in
       set_sampler sampler ;;; ret sampler
     else ret sampler);
  do live_points <- getitem (sampler_opts self) "live_points";
  do frac_remain <- getitem (sampler_opts self) "frac_remain";
  interp transform loglike (sampler_run sampler live_points frac_remain).

(** [SamplerResult.from_ultranest]: the constructor's default
    [models=None] is kept. *)
Definition from_ultranest (ultranest_result : UltranestResult) : SamplerResult :=
  {| nfev := ur_ncall ultranest_result;
     success := ur_converged ultranest_result;
     models := None;
     samples := Some (ur_samples ultranest_result);
     sampler_results := Some ultranest_result |}.

(** The datasets: the statistic they expose; their model set is
    [st_models] of the state. *)
Record Datasets := {
  _stat_sum_likelihood : heap -> R
}.

(** [_parse_datasets] of gammapy/modeling/utils.py is not part of the
    sources; it is a parameter of the development. *)
Variable _parse_datasets : Datasets -> Datasets * list loc.

(** [Sampler.run].  The report printed from
    [self._sampler.print_results()] is console output and is left out. *)
Definition run (self : Sampler) (datasets : Datasets) : M state SamplerResult :=
  let '(datasets, parameters) := _parse_datasets datasets in
  do st <- get;
  let parameters := free_parameters (st_heap st) parameters in
  if decide (backend self = "ultranest") then
    let like := {| function := _stat_sum_likelihood datasets;
                   parameters := parameters |} in
    do result <- sampler_ultranest self (fmap Some parameters) like;
    do st <- get;
    do models <- with_heap (_update_models (st_models st) result);
    set_st_models models ;;;
    let result := from_ultranest result in
    do st <- get;
    let result := set_models (models_copy (st_heap st) (st_models st)) result in
    ret result
  else
    raise (ValueError ("sampler " ++ backend self ++ " is not supported.")).

End Model.

Arguments Return {R A} a.
Arguments Throw {R A} e.
Arguments Transform {R A} u k.
Arguments Loglike {R A} p k.

(** ** The seeded spectrum simulation

    The class [SpectrumSimulation] is not part of the sources; only its
    test is.  The test shows the object's interface: the attributes
    [background_model] and [alpha] assigned after construction,
    [simulate_obs(seed=)] leaving the observation in [obs], and
    [run(seed=)] leaving the observations in [result], with
    [result.obs_id == seeds]. *)
Module SpectrumSimulation.
Section Simulation.
Context {R : Type} `{Scalar R}.

(** The external collaborators: spectral models, the response functions,
    and the pseudo-random generator with its vector of Poisson draws. *)
Context {SpectralModel EffectiveAreaTable EnergyDispersion Livetime : Type}.
Context {RandomState : Type}.

(** Folding a model through the response functions for a livetime gives
    the expected counts per reconstructed-energy bin; it fails with
    [ValueError] on incompatible binnings. *)
Variable npred :
  SpectralModel -> EffectiveAreaTable -> EnergyDispersion -> Livetime ->
  result (list R).
Variable get_random_state : Z -> RandomState.
Variable poisson : RandomState -> list R -> list nat * RandomState.

(** Modelled from the spec: a simulated observation, its identifier, the
    on counts per bin and, with a background, the off counts and the
    exposure ratio. *)
Record SpectrumObservation := {
  obs_id : Z;
  on_vector : list nat;
  off_vector : option (list nat);
  obs_alpha : option R
}.

(** Modelled from the spec: the simulation object, with the attributes
    the test reads and assigns. *)
Record t := {
  aeff : EffectiveAreaTable;
  edisp : EnergyDispersion;
  source_model : SpectralModel;
  livetime : Livetime;
  background_model : option SpectralModel;
  alpha : option R;
  obs : option SpectrumObservation;
  sim_result : list SpectrumObservation
}.

Definition set_obs (o : SpectrumObservation) (sim : t) : t :=
  {| aeff := aeff sim; edisp := edisp sim; source_model := source_model sim;
     livetime := livetime sim; background_model := background_model sim;
     alpha := alpha sim; obs := Some o; sim_result := sim_result sim |}.

Definition set_result (r : list SpectrumObservation) (sim : t) : t :=
  {| aeff := aeff sim; edisp := edisp sim; source_model := source_model sim;
     livetime := livetime sim; background_model := background_model sim;
     alpha := alpha sim; obs := obs sim; sim_result := r |}.

Definition reset (sim : t) : t :=
  {| aeff := aeff sim; edisp := edisp sim; source_model := source_model sim;
     livetime := livetime sim; background_model := background_model sim;
     alpha := alpha sim; obs := None; sim_result := [] |}.

(** Modelled from the spec: the background configuration; a background
    model without [alpha], or [alpha] without a background model, is a
    [ConfigurationError]. *)
Definition background_config (sim : t) : result (option (SpectralModel * R)) :=
  match background_model sim, alpha sim with
  | None, None => Ok None
  | Some b, Some a => Ok (Some (b, a))
  | Some _, None => Raise (ConfigurationError "background model without alpha")
  | None, Some _ => Raise (ConfigurationError "alpha without background model")
  end.

(** Modelled from the spec: [simulate_obs(seed)], the contract
    [simulate_one] of the specification.  The expected counts of the source
    come from folding the source model; the generator is seeded from
    [seed]; the on vector is drawn from the expected source counts, plus
    the expected background counts when a background is configured; the
    off vector is then drawn from the expected background counts divided
    by [alpha], which is kept on the observation.  The observation is
    identified by its seed and left in [obs]. *)
Definition simulate_obs (seed : Z) : M t unit :=
  do sim <- get;
  do bkg <- lift_result (background_config sim);
  do npred_source <-
    lift_result (npred (source_model sim) (aeff sim) (edisp sim) (livetime sim));
  let random_state := get_random_state seed in
  match bkg with
  | None =>
      let '(on_counts, _) := poisson random_state npred_source in
      modify (set_obs {| obs_id := seed; on_vector := on_counts;
                         off_vector := None; obs_alpha := None |})
  | Some (background, a) =>
      do npred_background <-
        lift_result (npred background (aeff sim) (edisp sim) (livetime sim));
      let '(on_counts, random_state) :=
        poisson random_state (zip_with s_add npred_source npred_background) in
      let '(off_counts, _) :=
        poisson random_state (fmap (fun x => s_div x a) npred_background) in
      modify (set_obs {| obs_id := seed; on_vector := on_counts;
                         off_vector := Some off_counts; obs_alpha := Some a |})
  end.

(** Modelled from the spec: the loop of [run], one simulation per seed,
    in the order of the seeds, each observation appended to [result]. *)
Fixpoint run_loop (seeds : list Z) : M t unit :=
  match seeds with
  | [] => ret tt
  | current_seed :: rest =>
      simulate_obs current_seed ;;;
      modify (fun sim =>
                match obs sim with
                | Some o => set_result (sim_result sim ++ [o]) sim
                | None => sim
                end) ;;;
      run_loop rest
  end.

(** Modelled from the spec: [run(seed=seeds)], the contract
    [simulate_batch] of the specification. *)
Definition run (seeds : list Z) : M t unit :=
  modify reset ;;;
  run_loop seeds.

(** Modelled from the spec: the contract [simulate_one(seed)], the
    observation read from [obs] after [simulate_obs]. *)
Definition simulate_one (seed : Z) (sim : t) : result SpectrumObservation :=
  match simulate_obs seed sim with
  | (Ok _, sim') =>
      match obs sim' with
      | Some o => Ok o
      | None => Raise AttributeError
      end
  | (Raise e, _) => Raise e
  end.

(** Modelled from the spec: the contract [simulate_batch(seeds)], the
    result set read from [result] after [run]. *)
Definition simulate_batch (seeds : list Z) (sim : t)
  : result (list SpectrumObservation) :=
  match run seeds sim with
  | (Ok _, sim') => Ok (sim_result sim')
  | (Raise e, _) => Raise e
  end.

(** The model state of the simulation: everything but [obs] and [result]. *)
Definition same_model_state (s1 s2 : t) : Prop :=
  aeff s1 = aeff s2 /\ edisp s1 = edisp s2 /\
  source_model s1 = source_model s2 /\ livetime s1 = livetime s2 /\
  background_model s1 = background_model s2 /\ alpha s1 = alpha s2.

End Simulation.
End SpectrumSimulation.

(** * A concrete model set, engine and simulation

    Exact rational arithmetic for the scalars; three parameters, the
    third frozen; engines that ask for one transform and one likelihood
    while the sampler is created and return a fixed dictionary from
    [run]. *)
Module Example.

Definition unit_prior : @Prior Q := {| _inverse_cdf := fun x => x |}.

Definition index_par : @ParameterObj Q :=
  {| par_name := "index"; par_value := (2 # 1)%Q; par_error := 0%Q;
     par_frozen := false; par_prior := Some unit_prior |}.

Definition amplitude_par : @ParameterObj Q :=
  {| par_name := "amplitude"; par_value := (1 # 1)%Q; par_error := 0%Q;
     par_frozen := false; par_prior := Some unit_prior |}.

Definition reference_par : @ParameterObj Q :=
  {| par_name := "reference"; par_value := (1 # 1)%Q; par_error := 0%Q;
     par_frozen := true; par_prior := None |}.

Definition index_par_without_prior : @ParameterObj Q :=
  {| par_name := "index"; par_value := (2 # 1)%Q; par_error := 0%Q;
     par_frozen := false; par_prior := None |}.

Definition heap0 : gmap positive (@ParameterObj Q) :=
  <[1%positive := index_par]>
  (<[2%positive := amplitude_par]>
  (<[3%positive := reference_par]> ∅)).

Definition heap_without_prior : gmap positive (@ParameterObj Q) :=
  <[1%positive := index_par_without_prior]> heap0.

Definition models0 : @Models Q :=
  {| m_parameters := [1; 2; 3]%positive; m_covariance := None |}.

(** An instance of the covariance setter: every parameter the covariance
    is built for gets the square root of its variance on the diagonal of
    the matrix, taken on the rationals by the integer square roots of the
    reduced numerator and denominator (exact for squares), or zero when
    it is not free; other objects are left alone. *)
Definition exact_sqrt (q : Q) : Q :=
  let r := Qred q in (Z.sqrt (Qnum r) # Pos.sqrt (Qden r))%Q.

Fixpoint index_of (l : positive) (ps : list positive) : option nat :=
  match ps with
  | [] => None
  | p :: ps' => if decide (p = l) then Some 0 else S <$> index_of l ps'
  end.

#[export] Instance sqrt_of_diagonal : @CovarianceSetter Q :=
  {| covariance_error := fun _ covariance h l =>
       if bool_decide (l ∈ cov_parameters covariance) then
         match index_of l (free_parameters h (cov_parameters covariance)) with
         | Some i => Some (exact_sqrt (entry (cov_data covariance) i i))
         | None => Some 0%Q
         end
       else None |}.

Definition samples0 : @ndarray Q :=
  {| shape0 := 3; shape1 := 2;
     items := [[2 # 1; 2 # 1]; [3 # 1; 4 # 1]; [4 # 1; 9 # 1]]%Q |}.

Definition payload0 : @UltranestResult Q :=
  {| ur_ncall := 7; ur_converged := true;
     ur_posterior_mean := [23 # 10; 5 # 2]%Q;
     ur_posterior_stdev := [1 # 10; 1 # 5]%Q;
     ur_samples := samples0 |}.


(** One posterior mean fewer than there are free parameters. *)
Definition payload_short : @UltranestResult Q :=
  {| ur_ncall := 7; ur_converged := true;
     ur_posterior_mean := [23 # 10]%Q;
     ur_posterior_stdev := [1 # 10; 1 # 5]%Q;
     ur_samples := samples0 |}.

(** An engine that, when created, transforms a point and evaluates the
    likelihood there. *)
Definition engine_transform_first : @Ultranest Q unit :=
  {| ReactiveNestedSampler := fun _ _ _ =>
       Transform [1 # 2; 1 # 2]%Q (fun p => Loglike p (fun _ => Return tt));
     SliceSampler := fun _ s => s;
     sampler_run := fun _ _ _ => Return payload0 |}.

(** An engine that, when created, evaluates the likelihood at a point of
    its own before it transforms one. *)
Definition engine_loglike_first : @Ultranest Q unit :=
  {| ReactiveNestedSampler := fun _ _ _ =>
       Loglike [0; 0]%Q (fun _ => Transform [1 # 2; 1 # 2]%Q (fun _ => Return tt));
     SliceSampler := fun _ s => s;
     sampler_run := fun _ _ _ => Return payload0 |}.

Definition datasets0 : @Datasets Q :=
  {| _stat_sum_likelihood := fun h =>
       match h !! 1%positive with
       | Some p => par_value p
       | None => 0%Q
       end |}.

Definition parse0 (datasets : @Datasets Q) : @Datasets Q * list positive :=
  (datasets, [1; 2; 3]%positive).

Definition sampler0 : Sampler :=
  {| backend := "ultranest"; sampler_opts := ultranest_default_opts |}.

Definition sampler_emcee : Sampler :=
  {| backend := "emcee"; sampler_opts := ultranest_default_opts |}.

Definition state0 : @state Q unit :=
  {| st_heap := heap0; _sampler := None; st_models := models0;
     st_loglike_calls := [] |}.

Definition state_without_prior : @state Q unit :=
  {| st_heap := heap_without_prior; _sampler := None; st_models := models0;
     st_loglike_calls := [] |}.

Definition like0 : @SamplerLikelihood Q :=
  {| function := _stat_sum_likelihood datasets0;
     parameters := [1; 2]%positive |}.

(** A simulation whose models are their amplitudes, with two energy bins
    and a counter for a generator. *)
Definition npred0 (model : Q) (_ _ _ : unit) : result (list Q) :=
  Ok [model; Qmult model (2 # 1)]%Q.

Definition poisson0 (random_state : Z) (expected : list Q) : list nat * Z :=
  ((fun x => Z.to_nat (Qnum x / Zpos (Qden x) + random_state)) <$> expected,
   (random_state + 1)%Z).

Definition sim0 : @SpectrumSimulation.t Q Q unit unit unit :=
  {| SpectrumSimulation.aeff := tt;
     SpectrumSimulation.edisp := tt;
     SpectrumSimulation.source_model := (5 # 2)%Q;
     SpectrumSimulation.livetime := tt;
     SpectrumSimulation.background_model := Some (3 # 1)%Q;
     SpectrumSimulation.alpha := Some (1 # 3)%Q;
     SpectrumSimulation.obs := None;
     SpectrumSimulation.sim_result := [] |}.

End Example.

(** * Auxiliary notions for the invariants *)

Section Auxiliary.
Context {R : Type} `{Scalar R}.

(** What identifies a parameter apart from its value and error. *)
Definition static_fields (p : @ParameterObj R)
  : string * bool * option (@Prior R) :=
  (par_name p, par_frozen p, par_prior p).

(** Two stores hold the same objects, each with the same name, frozen flag
    and prior. *)
Definition same_objects (h h' : gmap positive (@ParameterObj R)) : Prop :=
  forall l, static_fields <$> h' !! l = static_fields <$> h !! l.

Context {handle : Type}.

(** What a sampling phase leaves alone between two states: the objects
    with their names, frozen flags, priors and errors, and the model set. *)
Definition sampling_frame (st st' : @state R handle) : Prop :=
  same_objects (st_heap st) (st_heap st') /\
  (forall l, par_error <$> st_heap st' !! l = par_error <$> st_heap st !! l) /\
  st_models st' = st_models st.

End Auxiliary.

(** Further concrete inputs. *)
Module MoreExamples.

(** One posterior standard deviation fewer than there are free parameters. *)
Definition payload_short_stdev : @UltranestResult Q :=
  {| ur_ncall := 7; ur_converged := true;
     ur_posterior_mean := [23 # 10; 5 # 2]%Q;
     ur_posterior_stdev := [1 # 10]%Q;
     ur_samples := Example.samples0 |}.




(** The default options with another number of steps. *)
Definition sampler_nsteps : Sampler :=
  {| backend := "ultranest";
     sampler_opts := <["nsteps" := PyInt 7]> ultranest_default_opts |}.

End MoreExamples.

(** * Properties *)

Section Properties.
Context {R : Type} `{Scalar R} `{@CovarianceSetter R}.

#[local] Abbreviation heap := (gmap positive (@ParameterObj R)).

(** ** The monad *)

Lemma bind_raise {S A B} (c : M S A) (k : A -> M S B) s e s' :
  c s = (Raise e, s') -> bind c k s = (Raise e, s').
Proof. intros Hc. unfold bind. now rewrite Hc. Qed.

(** ** Sums over lists and over indices *)

Lemma foldl_fmap_fuse {A B C} (f : C -> B -> C) (g : A -> B) (l : list A) c :
  foldl f c (g <$> l) = foldl (fun acc x => f acc (g x)) c l.
Proof. revert c. induction l as [|x l IH]; intros c; simpl; auto. Qed.

Lemma foldl_by_index {A C} (f : C -> A -> C) (d : nat -> A) (l : list A) :
  forall s c,
    (forall k x, l !! k = Some x -> d (s + k) = x) ->
    foldl f c l = foldl (fun acc k => f acc (d k)) c (seq s (length l)).
Proof.
  induction l as [|x l IH]; intros s c Hd; simpl; [reflexivity|].
  pose proof (Hd 0 x eq_refl) as E. rewrite Nat.add_0_r in E. rewrite E.
  apply IH. intros k y Hk.
  rewrite <- (Hd (S k) y Hk). f_equal. lia.
Qed.

Lemma zip_with_fmap_same {A B C D} (f : B -> C -> D) (g : A -> B) (h : A -> C)
    (l : list A) :
  zip_with f (g <$> l) (h <$> l) = (fun x => f (g x) (h x)) <$> l.
Proof. induction l as [|x l IH]; csimpl; [reflexivity|]. now f_equal. Qed.

Lemma zip_with_comm_mul (x y : list R) :
  (forall a b : R, s_mul a b = s_mul b a) ->
  zip_with s_mul x y = zip_with s_mul y x.
Proof.
  intros Hc. revert y.
  induction x as [|a x IH]; intros [|b y]; simpl; try reflexivity.
  now rewrite Hc, IH.
Qed.

Lemma dot_comm (x y : list R) :
  (forall a b : R, s_mul a b = s_mul b a) -> dot x y = dot y x.
Proof. intros Hc. unfold dot. now rewrite (zip_with_comm_mul x y Hc). Qed.

(** ** Transposition and [np_cov] *)

Lemma T_well_shaped (a : @ndarray R) :
  length (items a) = shape0 a -> well_shaped (T a).
Proof.
  intros Hlen. split; simpl.
  - now rewrite length_fmap, length_seq.
  - apply Forall_fmap, Forall_forall. intros j _. simpl.
    now rewrite length_fmap.
Qed.

Lemma T_row (a : @ndarray R) (i : nat) :
  i < shape1 a ->
  items (T a) !! i = Some ((fun r => default s_zero (r !! i)) <$> items a).
Proof.
  intros Hi. simpl. rewrite list_lookup_fmap, lookup_seq_lt by exact Hi.
  reflexivity.
Qed.

Lemma np_cov_shape (m : @ndarray R) :
  shape0 (np_cov m) = shape0 m /\ shape1 (np_cov m) = shape0 m.
Proof.
  unfold np_cov. destruct (decide (shape0 m = 0)) as [E|E]; simpl;
    [rewrite E|]; split; reflexivity.
Qed.

Lemma np_cov_well_shaped (m : @ndarray R) :
  length (items m) = shape0 m -> well_shaped (np_cov m).
Proof.
  intros Hlen. unfold np_cov.
  destruct (decide (shape0 m = 0)) as [E|E]; split; simpl.
  - reflexivity.
  - constructor.
  - unfold centred. now rewrite !length_fmap.
  - apply Forall_fmap, Forall_fmap, Forall_forall. intros r _. simpl.
    unfold centred. now rewrite !length_fmap.
Qed.

Lemma np_cov_entry (m : @ndarray R) (i j : nat) (ri rj : list R) :
  shape0 m <> 0 ->
  centred m !! i = Some ri -> centred m !! j = Some rj ->
  entry (np_cov m) i j =
  s_mul (dot ri rj) (s_div s_one (s_of_nat (shape1 m - 1))).
Proof.
  intros Hne Hi Hj. unfold entry, np_cov.
  destruct (decide (shape0 m = 0)) as [E|_]; [contradiction|]. simpl.
  rewrite !list_lookup_fmap, Hi. simpl.
  rewrite !list_lookup_fmap, Hj. reflexivity.
Qed.

Lemma np_cov_entry_out (m : @ndarray R) (i j : nat) :
  centred m !! i = None \/ centred m !! j = None ->
  entry (np_cov m) i j = s_zero.
Proof.
  intros Hout. unfold entry, np_cov.
  destruct (decide (shape0 m = 0)) as [E|_]; simpl.
  - reflexivity.
  - rewrite !list_lookup_fmap.
    destruct (centred m !! i) as [ri|] eqn:Hi; simpl; [|reflexivity].
    rewrite !list_lookup_fmap.
    destruct Hout as [Ho|Ho]; [discriminate|]. now rewrite Ho.
Qed.

Lemma np_cov_symmetric (m : @ndarray R) (i j : nat) :
  (forall a b : R, s_mul a b = s_mul b a) ->
  entry (np_cov m) i j = entry (np_cov m) j i.
Proof.
  intros Hc.
  destruct (decide (shape0 m = 0)) as [E|E].
  { unfold entry, np_cov. destruct (decide (shape0 m = 0)); [|contradiction].
    reflexivity. }
  destruct (centred m !! i) as [ri|] eqn:Hi;
    destruct (centred m !! j) as [rj|] eqn:Hj.
  - rewrite (np_cov_entry m i j ri rj), (np_cov_entry m j i rj ri) by assumption.
    now rewrite (dot_comm ri rj Hc).
  - rewrite !np_cov_entry_out; auto.
  - rewrite !np_cov_entry_out; auto.
  - rewrite !np_cov_entry_out; auto.
Qed.

Lemma foldl_pointwise {A C} (f g : C -> A -> C) (l : list A) c :
  (forall acc x, f acc x = g acc x) -> foldl f c l = foldl g c l.
Proof.
  intros E. revert c. induction l as [|x l IH]; intros c; simpl; [reflexivity|].
  now rewrite E, IH.
Qed.

Lemma entry_of_row (S : @ndarray R) (k i : nat) :
  entry S k i = default s_zero (default [] (items S !! k) !! i).
Proof. unfold entry. destruct (items S !! k); reflexivity. Qed.

Lemma sum_over_rows (S : @ndarray R) (g : list R -> R) :
  sum_list (g <$> items S) =
  foldl (fun acc k => s_add acc (g (default [] (items S !! k)))) s_zero
        (seq 0 (length (items S))).
Proof.
  unfold sum_list. rewrite foldl_fmap_fuse.
  apply (foldl_by_index (fun acc r => s_add acc (g r))
                        (fun k => default [] (items S !! k))).
  intros k x Hk. simpl. now rewrite Hk.
Qed.

Lemma column_mean (S : @ndarray R) (i : nat) :
  length (items S) = shape0 S ->
  s_div (sum_list ((fun r => default s_zero (r !! i)) <$> items S))
        (s_of_nat (shape0 S)) = sample_mean S i.
Proof.
  intros Hlen. unfold sample_mean. f_equal.
  rewrite sum_over_rows, Hlen.
  apply foldl_pointwise. intros acc k. now rewrite entry_of_row.
Qed.

(** [np_cov] of the transposed sample matrix computes the unbiased sample
    covariance of the columns, given that scaling by [1 / fact] is
    dividing by [fact]. *)
Lemma np_cov_T_entry (S : @ndarray R) (i j : nat) :
  (forall x y : R, s_mul x (s_div s_one y) = s_div x y) ->
  length (items S) = shape0 S ->
  i < shape1 S -> j < shape1 S ->
  entry (np_cov (T S)) i j = sample_covariance S i j.
Proof.
  intros Hdiv Hlen Hi Hj.
  assert (Hne : shape0 (T S) <> 0) by (simpl; lia).
  assert (Hrow : forall n, n < shape1 S ->
            centred (T S) !! n =
            Some ((fun r => s_sub (default s_zero (r !! n)) (sample_mean S n))
                    <$> items S)).
  { intros n Hn. unfold centred. rewrite list_lookup_fmap, (T_row S n Hn).
    simpl. rewrite (column_mean S n Hlen).
    now rewrite <- list_fmap_compose. }
  rewrite (np_cov_entry (T S) i j _ _ Hne (Hrow i Hi) (Hrow j Hj)).
  rewrite Hdiv. unfold sample_covariance. simpl. f_equal.
  unfold dot. rewrite zip_with_fmap_same, sum_over_rows, Hlen.
  apply foldl_pointwise. intros acc k. now rewrite !entry_of_row.
Qed.

(** ** The update loop *)

Lemma update_loop_cons (i : nat) (par : loc) (rest : list loc)
    (mean stdev : list R) (h : heap) :
  update_loop i (par :: rest) mean stdev h =
  match mean !! i with
  | None => (Raise IndexError, h)
  | Some m =>
      match stdev !! i with
      | None => (Raise IndexError, alter (set_value m) par h)
      | Some s =>
          update_loop (S i) rest mean stdev
            (alter (set_error s) par (alter (set_value m) par h))
      end
  end.
Proof.
  simpl. unfold bind, lift_result, modify.
  destruct (mean !! i) as [m|]; [|reflexivity].
  destruct (stdev !! i) as [s|]; reflexivity.
Qed.



(** With enough posterior entries the loop ends normally; a parameter that
    does not occur later in the sequence ends with the entries of its
    index, and objects outside the sequence are left alone. *)
Lemma update_loop_ok (mean stdev : list R) (pars : list loc) :
  forall i (h : heap),
    i + length pars <= length mean ->
    i + length pars <= length stdev ->
    exists h',
      update_loop i pars mean stdev h = (Ok tt, h') /\
      (forall l, l ∉ pars -> h' !! l = h !! l) /\
      (forall k l, pars !! k = Some l -> l ∉ drop (S k) pars ->
         exists m s, mean !! (i + k) = Some m /\ stdev !! (i + k) = Some s /\
                     h' !! l = (fun p => set_error s (set_value m p)) <$> h !! l).
Proof.
  induction pars as [|par rest IH]; intros i h Hm Hs.
  - exists h. split; [reflexivity|]. split; [reflexivity|].
    intros k l Hk. now rewrite lookup_nil in Hk.
  - simpl in Hm, Hs.
    destruct (lookup_lt_is_Some_2 mean i) as [m Hmi]; [lia|].
    destruct (lookup_lt_is_Some_2 stdev i) as [s Hsi]; [lia|].
    set (h1 := alter (set_error s) par (alter (set_value m) par h)).
    destruct (IH (S i) h1) as (h' & Hrun & Hout & Hin); [lia|lia|].
    exists h'. split; [|split].
    + rewrite update_loop_cons, Hmi, Hsi. exact Hrun.
    + intros l Hl. apply not_elem_of_cons in Hl as [Hne Hl].
      rewrite (Hout l Hl). unfold h1.
      now rewrite !lookup_alter_ne by congruence.
    + intros [|k] l Hk Hlast.
      * injection Hk as ->. simpl in Hlast.
        exists m, s. rewrite Nat.add_0_r. split; [exact Hmi|]. split; [exact Hsi|].
        rewrite (Hout l Hlast). unfold h1. rewrite !lookup_alter_eq.
        now destruct (h !! l).
      * simpl in Hk, Hlast.
        destruct (Hin k l Hk Hlast) as (m' & s' & Hm' & Hs' & Hl).
        exists m', s'. replace (i + S k) with (S i + k) by lia.
        split; [exact Hm'|]. split; [exact Hs'|].
        rewrite Hl. unfold h1.
        destruct (decide (par = l)) as [->|Hne].
        -- rewrite !lookup_alter_eq. now destruct (h !! l).
        -- now rewrite !lookup_alter_ne by exact Hne.
Qed.

(** With a posterior array too short for the sequence the loop raises
    [IndexError]. *)
Lemma update_loop_short (mean stdev : list R) (pars : list loc) :
  forall i (h : heap),
    i <= length mean -> i <= length stdev ->
    length mean < i + length pars \/ length stdev < i + length pars ->
    exists h', update_loop i pars mean stdev h = (Raise IndexError, h').
Proof.
  induction pars as [|par rest IH]; intros i h Hm Hs Hshort.
  - simpl in Hshort. lia.
  - rewrite update_loop_cons.
    destruct (mean !! i) as [m|] eqn:Hmi; [|eauto].
    destruct (stdev !! i) as [s|] eqn:Hsi; [|eauto].
    apply lookup_lt_Some in Hmi, Hsi.
    apply IH; simpl in Hshort; lia.
Qed.

(** ** The covariance setter *)

Lemma write_errors_lookup (models : @Models R) (c : Covariance) (h : heap)
    (l : loc) :
  write_errors models c h !! l =
  (fun p => match covariance_error models c h l with
            | Some e => set_error e p
            | None => p
            end) <$> h !! l.
Proof.
  unfold write_errors. rewrite map_lookup_imap.
  destruct (h !! l); reflexivity.
Qed.

(** What does not depend on a parameter's error is read the same after
    the setter. *)
Lemma write_errors_preserves {B} (g : @ParameterObj R -> B)
    (models : @Models R) (c : Covariance) (h : heap) (l : loc) :
  (forall e p, g (set_error e p) = g p) ->
  g <$> write_errors models c h !! l = g <$> h !! l.
Proof.
  intros Hg. rewrite write_errors_lookup.
  destruct (h !! l) as [p|]; simpl; [|reflexivity].
  destruct (covariance_error models c h l); [now rewrite Hg|reflexivity].
Qed.


Lemma _update_models_unfold (models : @Models R) (results : UltranestResult)
    (h : heap) :
  _update_models models results h =
  match update_loop 0 (free_parameters h (m_parameters models))
                    (ur_posterior_mean results) (ur_posterior_stdev results) h
  with
  | (Ok _, h') =>
      (Ok (set_covariance
             (from_factor_matrix (m_parameters models)
                                 (np_cov (T (ur_samples results)))) models),
       write_errors models
         (from_factor_matrix (m_parameters models)
                             (np_cov (T (ur_samples results)))) h')
  | (Raise e, h') => (Raise e, h')
  end.
Proof.
  unfold _update_models, covariance_setter, bind, get, ret, modify.
  destruct (update_loop _ _ _ _ h) as [[[]|e] h']; reflexivity.
Qed.

Lemma NoDup_not_later {A} (l : list A) (k : nat) (x : A) :
  NoDup l -> l !! k = Some x -> x ∉ drop (S k) l.
Proof.
  intros Hnd Hk Hin.
  apply list_elem_of_lookup in Hin as [j Hj].
  rewrite lookup_drop in Hj.
  pose proof (NoDup_lookup l _ _ x Hnd Hk Hj). lia.
Qed.

Lemma free_parameters_stable (h h' : heap) (ps : list loc) :
  (forall l, is_free h' l = is_free h l) ->
  free_parameters h' ps = free_parameters h ps.
Proof.
  intros E. unfold free_parameters. apply list_filter_iff.
  intros l. now rewrite E.
Qed.

Lemma free_parameters_is_free (h : heap) (ps : list loc) (l : loc) :
  l ∈ free_parameters h ps -> exists p, h !! l = Some p /\ par_frozen p = false.
Proof.
  unfold free_parameters. rewrite list_elem_of_filter. intros [Hf _].
  unfold is_free in Hf. destruct (h !! l) as [p|]; [|discriminate].
  exists p. split; [reflexivity|]. now destruct (par_frozen p).
Qed.



(** C1.  With one posterior entry per free parameter and a sample matrix
    of shape (M, N), N the number of free parameters and M > N,
    [_update_models] attaches a covariance whose matrix is
    [np.cov(samples.T)]: it is N x N, its entry (i, j) is the unbiased
    sample covariance (denominator M - 1) of the columns i and j of the
    sample matrix, and it is symmetric.  The arithmetic is taken exact:
    multiplication commutes and scaling by [1 / f] is dividing by [f]. *)
Theorem update_models_covariance
    (models : @Models R) (results : UltranestResult) (h : heap) (M N : nat) :
  (forall a b : R, s_mul a b = s_mul b a) ->
  (forall x y : R, s_mul x (s_div s_one y) = s_div x y) ->
  length (free_parameters h (m_parameters models)) = N ->
  length (ur_posterior_mean results) = N ->
  length (ur_posterior_stdev results) = N ->
  well_shaped (ur_samples results) ->
  shape0 (ur_samples results) = M ->
  shape1 (ur_samples results) = N ->
  N < M ->
  exists models' h' covariance,
    _update_models models results h = (Ok models', h') /\
    m_covariance models' = Some covariance /\
    cov_data covariance = np_cov (T (ur_samples results)) /\
    well_shaped (cov_data covariance) /\
    shape0 (cov_data covariance) = N /\
    shape1 (cov_data covariance) = N /\
    (forall i j, i < N -> j < N ->
       entry (cov_data covariance) i j =
         sample_covariance (ur_samples results) i j) /\
    (forall i j,
       entry (cov_data covariance) i j = entry (cov_data covariance) j i).
Proof.
  intros Hcomm Hdiv Hfree Hm Hs [Hrows Hcols] HM HN Hlt.
  destruct (update_loop_ok (ur_posterior_mean results)
              (ur_posterior_stdev results)
              (free_parameters h (m_parameters models)) 0 h)
    as (h' & Hrun & _); [simpl; lia|simpl; lia|].
  eexists _, _, _. split.
  { rewrite _update_models_unfold, Hrun. reflexivity. }
  split; [reflexivity|].
  cbn [cov_data from_factor_matrix].
  split; [reflexivity|].
  split; [apply np_cov_well_shaped, T_well_shaped; exact Hrows|].
  destruct (np_cov_shape (T (ur_samples results))) as [-> ->].
  split; [exact HN|]. split; [exact HN|].
  split.
  - intros i j Hi Hj. apply np_cov_T_entry; [exact Hdiv|exact Hrows|lia|lia].
  - intros i j. apply np_cov_symmetric, Hcomm.
Qed.


(** ** The likelihood adapter *)

Lemma assign_values_spec (ps : list loc) :
  forall (vs : list R) (h : heap),
    (forall l, l ∉ ps -> assign_values ps vs h !! l = h !! l) /\
    (forall i par v,
        ps !! i = Some par -> vs !! i = Some v -> par ∉ drop (S i) ps ->
        assign_values ps vs h !! par = set_value v <$> h !! par).
Proof.
  induction ps as [|p ps IH]; intros vs h.
  - split; [reflexivity|]. intros i par v Hi. now rewrite lookup_nil in Hi.
  - destruct vs as [|v0 vs].
    { split; [reflexivity|]. intros i par v _ Hv. now rewrite lookup_nil in Hv. }
    simpl. destruct (IH vs (alter (set_value v0) p h)) as [Hout Hin].
    split.
    + intros l Hl. apply not_elem_of_cons in Hl as [Hne Hl].
      rewrite (Hout l Hl). now rewrite lookup_alter_ne by congruence.
    + intros [|i] par v Hi Hv Hlast; simpl in Hi, Hv, Hlast.
      * injection Hi as ->. injection Hv as ->.
        rewrite (Hout par Hlast). now rewrite lookup_alter_eq.
      * rewrite (Hin i par v Hi Hv Hlast).
        destruct (decide (p = par)) as [->|Hne].
        -- rewrite lookup_alter_eq. destruct (h !! par); reflexivity.
        -- now rewrite lookup_alter_ne by exact Hne.
Qed.


(** ** The constructor *)

(** C10.  For the backend ["ultranest"] the constructor succeeds, and the
    options of the sampler are the six defaults overridden key by key by
    the options the caller gave: a key the caller gave has the caller's
    value, any other key has its default. *)
Theorem init_ultranest_options (opts : option (gmap string pyval)) (key : string) :
  ultranest_default_opts !! "live_points" = Some (PyInt 200) /\
  ultranest_default_opts !! "frac_remain" = Some (PyFloat (1 # 2)) /\
  ultranest_default_opts !! "log_dir" = Some PyNone /\
  ultranest_default_opts !! "resume" = Some (PyStr "subfolder") /\
  ultranest_default_opts !! "step_sampler" = Some (PyBool false) /\
  ultranest_default_opts !! "nsteps" = Some (PyInt 20) /\
  dom ultranest_default_opts =
    ({["live_points"; "frac_remain"; "log_dir"; "resume"; "step_sampler";
       "nsteps"]} : gset string) /\
  exists self,
    __init__ "ultranest" opts = Ok self /\
    backend self = "ultranest" /\
    sampler_opts self !! key =
      match opts with
      | Some given =>
          match given !! key with
          | Some v => Some v
          | None => ultranest_default_opts !! key
          end
      | None => ultranest_default_opts !! key
      end.
Proof.
  do 6 (split; [reflexivity|]).
  split.
  { unfold ultranest_default_opts. rewrite !dom_insert_L, dom_empty_L.
    set_solver. }
  unfold __init__. rewrite decide_True by reflexivity.
  eexists. split; [reflexivity|]. split; [reflexivity|]. simpl.
  destruct opts as [given|]; [|reflexivity].
  rewrite lookup_union. destruct (given !! key) as [v|]; simpl.
  - now destruct (ultranest_default_opts !! key).
  - now destruct (ultranest_default_opts !! key).
Qed.

(** Any other backend leaves [default_opts] unbound: the constructor
    raises. *)
Lemma init_other_backend (name : string) (opts : option (gmap string pyval)) :
  name <> "ultranest" ->
  __init__ name opts = Raise (UnboundLocalError "default_opts").
Proof. intros Hne. unfold __init__. now rewrite decide_False by exact Hne. Qed.

(** ** Sampling runs *)

Context {handle : Type} `{@Ultranest R handle}.
Variable _parse_datasets : @Datasets R -> @Datasets R * list loc.

#[local] Abbreviation state := (@state R handle).

Lemma with_heap_same {A} (c : M heap A) (st : state) (r : result A) :
  c (st_heap st) = (r, st_heap st) -> with_heap c st = (r, st).
Proof. intros Hc. unfold with_heap. rewrite Hc. now destruct st. Qed.

(** The sequence [run] hands to [sampler_ultranest] holds parameter
    objects only. *)
Lemma None_not_in_objects (ps : list loc) : None ∉ (Some <$> ps).
Proof. rewrite list_elem_of_fmap. intros (l & Hl & _). discriminate. Qed.

(** A sequence of parameter objects passes the guard whatever their
    priors are; a member without a prior then makes the transform raise
    [AttributeError] when its turn comes. *)
Lemma transform_each_missing_prior (h : heap) (pars : list (option loc)) :
  forall (values : list R) (i : nat) (par : option loc),
    pars !! i = Some par -> i < length values ->
    (forall val, prior_inverse_cdf_of h par val = Raise AttributeError) ->
    transform_each h pars values = Raise AttributeError.
Proof.
  induction pars as [|p pars IH]; intros values i par Hi Hlen Hmiss.
  - now rewrite lookup_nil in Hi.
  - destruct values as [|val values]; [simpl in Hlen; lia|].
    simpl. destruct i as [|i]; simpl in Hi.
    + injection Hi as ->. now rewrite Hmiss.
    + destruct (prior_inverse_cdf_of h p val) as [x|e] eqn:Hp.
      * rewrite (IH values i par Hi); [reflexivity|simpl in Hlen; lia|exact Hmiss].
      * unfold prior_inverse_cdf_of in Hp.
        destruct p as [l|]; [|now injection Hp as <-].
        destruct (h !! l) as [[? ? ? ? [pr|]]|]; try discriminate;
          now injection Hp as <-.
Qed.

Lemma prior_inverse_cdf_objects_missing_prior (h : heap) (ps : list loc)
    (values : list R) (i : nat) (l : loc) (p : ParameterObj) :
  ps !! i = Some l -> i < length values ->
  h !! l = Some p -> par_prior p = None ->
  _prior_inverse_cdf (Some <$> ps) values h = (Raise AttributeError, h).
Proof.
  intros Hi Hlen Hl Hprior. unfold _prior_inverse_cdf.
  rewrite bool_decide_eq_false_2 by apply None_not_in_objects.
  unfold bind, get, lift_result.
  rewrite (transform_each_missing_prior h (Some <$> ps) values i (Some l));
    [reflexivity| |exact Hlen|].
  - now rewrite list_lookup_fmap, Hi.
  - intros val. unfold prior_inverse_cdf_of. rewrite Hl.
    destruct p as [? ? ? ? pr]. simpl in Hprior. now subst pr.
Qed.

(** The guard of the transform callable, on a sequence that has [None]
    for a member: the callable raises [ValueError] with the missing-prior
    message and leaves the store as it is, and an engine call that asks
    for a transform ends with that error, the state unchanged. *)
Theorem prior_guard_in_transform {A} (parameters : list (option loc))
    (like : SamplerLikelihood) (values : list R)
    (k : list R -> engine A) (st : state) :
  None ∈ parameters ->
  _prior_inverse_cdf parameters values (st_heap st) =
    (Raise (ValueError missing_prior_message), st_heap st) /\
  interp (fun values => with_heap (_prior_inverse_cdf parameters values))
         (fun value => with_heap (fcn like value))
         (Transform values k) st =
    (Raise (ValueError missing_prior_message), st).
Proof.
  intros Hnone.
  assert (Hguard : _prior_inverse_cdf parameters values (st_heap st) =
                   (Raise (ValueError missing_prior_message), st_heap st)).
  { unfold _prior_inverse_cdf. now rewrite bool_decide_eq_true_2 by exact Hnone. }
  split; [exact Hguard|].
  simpl. apply bind_raise. now apply with_heap_same.
Qed.

(** C8.  A sampler whose backend is not ["ultranest"] raises
    [ValueError] ("sampler ... is not supported.") when [run] is called:
    the state is left as it was, so no engine has been created, no
    likelihood evaluated and no parameter changed. *)
Theorem run_unsupported_backend (self : Sampler) (datasets : @Datasets R)
    (st : state) :
  backend self <> "ultranest" ->
  run _parse_datasets self datasets st =
    (Raise (ValueError ("sampler " ++ backend self ++ " is not supported.")), st).
Proof.
  intros Hne. unfold run.
  destruct (_parse_datasets datasets) as [ds ps].
  unfold bind, get. now rewrite decide_False by exact Hne.
Qed.

(** C9 (as the code has it).  A run that returns has built its
    [SamplerResult] once, by [from_ultranest] on the dictionary the
    engine returned, which leaves [models] at [None]; [run] then assigns
    [models] the copy of the updated model set.  In the returned result
    the evaluation count, the convergence flag, the samples and the raw
    dictionary are those of the construction. *)
Theorem run_builds_result (self : Sampler) (datasets : @Datasets R)
    (st st' : state) (res : SamplerResult) :
  run _parse_datasets self datasets st = (Ok res, st') ->
  exists payload st1,
    sampler_ultranest self
      (Some <$> free_parameters (st_heap st) (snd (_parse_datasets datasets)))
      {| function := _stat_sum_likelihood (fst (_parse_datasets datasets));
         parameters :=
           free_parameters (st_heap st) (snd (_parse_datasets datasets)) |}
      st = (Ok payload, st1) /\
    models (from_ultranest payload) = None /\
    res = set_models (models_copy (st_heap st') (st_models st'))
                     (from_ultranest payload) /\
    nfev res = ur_ncall payload /\
    success res = ur_converged payload /\
    samples res = Some (ur_samples payload) /\
    sampler_results res = Some payload /\
    models res = Some (models_copy (st_heap st') (st_models st')).
Proof.
  unfold run. destruct (_parse_datasets datasets) as [ds ps]. simpl.
  unfold bind at 1. unfold get at 1.
  destruct (decide (backend self = "ultranest")) as [_|Hne];
    [|intros Hrun; discriminate Hrun].
  unfold bind at 1.
  destruct (sampler_ultranest _ _ _ st) as [[payload|e] st1] eqn:Hsamp;
    [|intros Hrun; discriminate Hrun].
  unfold bind at 1. unfold get at 1.
  unfold bind at 1.
  destruct (with_heap _ st1) as [[models'|e] st2] eqn:Hupd;
    [|intros Hrun; discriminate Hrun].
  unfold bind, set_st_models, modify, get, ret. simpl.
  intros Hrun. injection Hrun as <- <-.
  exists payload, st1. repeat split; reflexivity.
Qed.

End Properties.

(** ** The seeded simulation *)

Section SimulationProperties.
Context {R : Type} `{Scalar R}.
Context {SpectralModel EffectiveAreaTable EnergyDispersion Livetime : Type}.
Context {RandomState : Type}.
Variable npred :
  SpectralModel -> EffectiveAreaTable -> EnergyDispersion -> Livetime ->
  result (list R).
Variable get_random_state : Z -> RandomState.
Variable poisson : RandomState -> list R -> list nat * RandomState.

Import SpectrumSimulation.

#[local] Abbreviation sim_t :=
  (@SpectrumSimulation.t R SpectralModel EffectiveAreaTable EnergyDispersion
                           Livetime).
#[local] Abbreviation simulate_obs :=
  (SpectrumSimulation.simulate_obs npred get_random_state poisson).
#[local] Abbreviation simulate_one :=
  (SpectrumSimulation.simulate_one npred get_random_state poisson).
#[local] Abbreviation run_loop :=
  (SpectrumSimulation.run_loop npred get_random_state poisson).
#[local] Abbreviation run :=
  (SpectrumSimulation.run npred get_random_state poisson).
#[local] Abbreviation simulate_batch :=
  (SpectrumSimulation.simulate_batch npred get_random_state poisson).

Lemma collect_ext {A B} (f g : A -> result B) (l : list A) :
  (forall x, f x = g x) -> collect f l = collect g l.
Proof.
  intros E. induction l as [|x l IH]; simpl; [reflexivity|].
  now rewrite E, IH.
Qed.

Lemma collect_lookup {A B} (f : A -> result B) (l : list A) :
  forall ys, collect f l = Ok ys ->
    length ys = length l /\
    forall i x, l !! i = Some x -> exists y, ys !! i = Some y /\ f x = Ok y.
Proof.
  induction l as [|x l IH]; simpl; intros ys Hc.
  - injection Hc as <-. split; [reflexivity|]. intros i y Hi.
    now rewrite lookup_nil in Hi.
  - destruct (f x) as [y|e] eqn:Hfx; [|discriminate].
    destruct (collect f l) as [ys'|e]; [|discriminate].
    injection Hc as <-. destruct (IH ys' eq_refl) as [Hlen Hlk].
    split; [simpl; now rewrite Hlen|].
    intros [|i] z Hi; simpl in Hi.
    + injection Hi as <-. exists y. split; [reflexivity|exact Hfx].
    + exact (Hlk i z Hi).
Qed.

(** What [simulate_obs] does to the object, in terms of the observation it
    produces. *)
Lemma simulate_obs_outcome (seed : Z) (sim : sim_t) :
  simulate_obs seed sim =
  match simulate_one seed sim with
  | Ok o => (Ok tt, set_obs o sim)
  | Raise e => (Raise e, sim)
  end /\
  forall o, simulate_one seed sim = Ok o -> obs_id o = seed.
Proof.
  unfold SpectrumSimulation.simulate_one, SpectrumSimulation.simulate_obs.
  unfold bind, get, lift_result, modify.
  destruct (background_config sim) as [[[b a]|]|e]; simpl.
  - destruct (npred (source_model sim) _ _ _) as [src|e]; simpl;
      [|split; [reflexivity|discriminate]].
    destruct (npred b _ _ _) as [bk|e]; simpl;
      [|split; [reflexivity|discriminate]].
    destruct (poisson _ _) as [on rs]. destruct (poisson rs _) as [off rs'].
    simpl. split; [reflexivity|]. now intros o [= <-].
  - destruct (npred (source_model sim) _ _ _) as [src|e]; simpl;
      [|split; [reflexivity|discriminate]].
    destruct (poisson _ _) as [on rs].
    simpl. split; [reflexivity|]. now intros o [= <-].
  - split; [reflexivity|discriminate].
Qed.

(** The observation depends on the model state and the seed only. *)
Lemma simulate_one_model_state (seed : Z) (s1 s2 : sim_t) :
  same_model_state s1 s2 -> simulate_one seed s1 = simulate_one seed s2.
Proof.
  destruct s1, s2. unfold same_model_state. simpl.
  intros (-> & -> & -> & -> & -> & ->).
  unfold SpectrumSimulation.simulate_one, SpectrumSimulation.simulate_obs.
  unfold bind, get, lift_result, modify, background_config. simpl.
  destruct background_model1 as [b|], alpha1 as [a|]; simpl; try reflexivity.
  - destruct (npred source_model1 _ _ _) as [src|e]; simpl; [|reflexivity].
    destruct (npred b _ _ _) as [bk|e]; simpl; [|reflexivity].
    destruct (poisson _ _) as [on rs]. destruct (poisson rs _) as [off rs'].
    reflexivity.
  - destruct (npred source_model1 _ _ _) as [src|e]; simpl; [|reflexivity].
    destruct (poisson _ _) as [on rs]. reflexivity.
Qed.

Lemma same_model_state_refl (s : sim_t) : same_model_state s s.
Proof. repeat split. Qed.

Lemma same_model_state_trans (s1 s2 s3 : sim_t) :
  same_model_state s1 s2 -> same_model_state s2 s3 -> same_model_state s1 s3.
Proof.
  unfold same_model_state.
  intros (-> & -> & -> & -> & -> & ->) (-> & -> & -> & -> & -> & ->).
  repeat split.
Qed.

Lemma simulate_obs_model_state (seed : Z) (sim : sim_t) :
  same_model_state sim (snd (simulate_obs seed sim)) /\
  sim_result (snd (simulate_obs seed sim)) = sim_result sim.
Proof.
  destruct (simulate_obs_outcome seed sim) as [-> _].
  destruct (simulate_one seed sim); simpl; split;
    solve [reflexivity | apply same_model_state_refl | repeat split].
Qed.

(** C4.  For every seed, two simulation objects in the same model state
    (response functions, source model, livetime, background model and
    alpha) produce the same outcome of [simulate_one]: the same error, or
    observations equal in every field, the on and off count vectors
    among them.  In particular calling it a second time on the object the
    first call left behind gives the same again. *)
Theorem simulate_one_deterministic (seed : Z) (s1 s2 : sim_t) :
  same_model_state s1 s2 ->
  simulate_one seed s1 = simulate_one seed s2 /\
  simulate_one seed (snd (simulate_obs seed s1)) = simulate_one seed s1.
Proof.
  intros Hsame. split.
  - exact (simulate_one_model_state seed s1 s2 Hsame).
  - symmetry. apply simulate_one_model_state.
    exact (proj1 (simulate_obs_model_state seed s1)).
Qed.

(** The loop of [run] against the isolated runs: it ends normally exactly
    when every isolated run does, and then has appended their
    observations, in order, without touching the model state. *)
Lemma run_loop_collect (seeds : list Z) :
  forall sim : sim_t,
    match collect (fun seed => simulate_one seed sim) seeds with
    | Ok observations =>
        exists sim',
          run_loop seeds sim = (Ok tt, sim') /\
          sim_result sim' = (sim_result sim ++ observations)%list /\
          same_model_state sim sim'
    | Raise e => exists sim', run_loop seeds sim = (Raise e, sim')
    end.
Proof.
  induction seeds as [|seed rest IH]; intros sim.
  - simpl. exists sim. split; [reflexivity|]. split.
    + now rewrite app_nil_r.
    + apply same_model_state_refl.
  - assert (Hstep :
      run_loop (seed :: rest) sim =
      match simulate_one seed sim with
      | Ok o => run_loop rest
                  (set_result (sim_result (set_obs o sim) ++ [o])%list
                              (set_obs o sim))
      | Raise e => (Raise e, sim)
      end).
    { cbn [SpectrumSimulation.run_loop]. unfold bind at 1.
      destruct (simulate_obs_outcome seed sim) as [-> _].
      destruct (simulate_one seed sim); reflexivity. }
    rewrite Hstep. cbn [collect].
    destruct (simulate_one seed sim) as [o|e] eqn:Ho; [|eauto].
    set (sim1 := set_result (sim_result (set_obs o sim) ++ [o])%list
                            (set_obs o sim)).
    assert (Hsame : same_model_state sim1 sim) by (repeat split).
    specialize (IH sim1).
    rewrite (collect_ext (fun seed => simulate_one seed sim1)
                         (fun seed => simulate_one seed sim)) in IH
      by (intros x; now apply simulate_one_model_state).
    destruct (collect (fun seed => simulate_one seed sim) rest) as [os|e].
    + destruct IH as (sim' & Hrun & Hres & Hst).
      exists sim'. split; [exact Hrun|]. split.
      * rewrite Hres. unfold sim1. simpl. now rewrite <- app_assoc.
      * apply (same_model_state_trans sim sim1 sim'); [repeat split|exact Hst].
    + exact IH.
Qed.

(** C5.  For every list of seeds, [simulate_batch] is the list of the
    isolated runs, seed by seed and in the order of the seeds: it fails
    exactly when an isolated run fails, and otherwise returns one
    observation per seed, the one at position [i] being the observation
    [simulate_one] produces for the seed at position [i] on any object
    in the same model state (and identified by that seed). *)
Theorem simulate_batch_matches_isolated_runs (seeds : list Z) (sim : sim_t) :
  simulate_batch seeds sim = collect (fun seed => simulate_one seed sim) seeds /\
  (forall observations,
      simulate_batch seeds sim = Ok observations ->
      length observations = length seeds /\
      forall i seed (sim' : sim_t),
        seeds !! i = Some seed -> same_model_state sim sim' ->
        exists o, observations !! i = Some o /\
                  simulate_one seed sim' = Ok o /\
                  obs_id o = seed).
Proof.
  assert (Heq : simulate_batch seeds sim =
                collect (fun seed => simulate_one seed sim) seeds).
  { unfold SpectrumSimulation.simulate_batch, SpectrumSimulation.run.
    unfold bind at 1. unfold modify at 1.
    pose proof (run_loop_collect seeds (reset sim)) as Hloop.
    rewrite (collect_ext (fun seed => simulate_one seed (reset sim))
                         (fun seed => simulate_one seed sim)) in Hloop
      by (intros x; apply simulate_one_model_state; repeat split).
    destruct (collect (fun seed => simulate_one seed sim) seeds) as [os|e].
    - destruct Hloop as (sim' & -> & Hres & _). now rewrite Hres.
    - destruct Hloop as (sim' & ->). reflexivity. }
  split; [exact Heq|].
  intros observations Hok. rewrite Heq in Hok.
  destruct (collect_lookup _ _ _ Hok) as [Hlen Hlk].
  split; [exact Hlen|].
  intros i seed sim' Hi Hsame.
  destruct (Hlk i seed Hi) as (o & Ho & Hone).
  exists o. split; [exact Ho|]. split.
  - now rewrite <- (simulate_one_model_state seed sim sim' Hsame).
  - exact (proj2 (simulate_obs_outcome seed sim) o Hone).
Qed.

End SimulationProperties.

(** * The properties at the concrete inputs *)

Import Example MoreExamples.

(** Exact rational arithmetic has the two laws the covariance needs. *)
Lemma Q_mul_comm (a b : Q) : s_mul a b = s_mul b a.
Proof.
  destruct a as [an ad], b as [bn bd]. simpl. unfold Qmult. simpl.
  now rewrite Z.mul_comm, Pos.mul_comm.
Qed.

Lemma Q_scale_is_div (x y : Q) : s_mul x (s_div s_one y) = s_div x y.
Proof.
  simpl. unfold Qdiv. f_equal.
  destruct (Qinv y) as [n d]. unfold Qmult. simpl. now destruct n.
Qed.

Lemma update_models_covariance_witness :
  exists models' h' covariance,
    _update_models models0 payload0 heap0 = (Ok models', h') /\
    m_covariance models' = Some covariance /\
    shape0 (cov_data covariance) = 2 /\
    shape1 (cov_data covariance) = 2 /\
    entry (cov_data covariance) 0 1 = sample_covariance samples0 0 1 /\
    entry (cov_data covariance) 0 1 = entry (cov_data covariance) 1 0.
Proof.
  destruct (update_models_covariance models0 payload0 heap0 3 2)
    as (models' & h' & covariance & Hrun & Hcov & _ & _ & H0 & H1 & Hentry & Hsym).
  - exact Q_mul_comm.
  - exact Q_scale_is_div.
  - reflexivity.
  - reflexivity.
  - reflexivity.
  - split; [reflexivity|]. repeat constructor.
  - reflexivity.
  - reflexivity.
  - lia.
  - exists models', h', covariance.
    split; [exact Hrun|]. split; [exact Hcov|].
    split; [exact H0|]. split; [exact H1|].
    split; [apply Hentry; lia|apply Hsym].
Defined.




Lemma prior_guard_in_transform_witness :
  _prior_inverse_cdf [None; Some 1%positive] [1 # 2; 1 # 2]%Q (st_heap state0) =
    (Raise (ValueError missing_prior_message), st_heap state0) /\
  interp (fun values =>
            with_heap (_prior_inverse_cdf [None; Some 1%positive] values))
         (fun value => with_heap (fcn like0 value))
         (Transform [1 # 2; 1 # 2]%Q (fun p => Loglike p (fun _ => Return tt)))
         state0 =
    (Raise (ValueError missing_prior_message), state0).
Proof.
  apply (prior_guard_in_transform [None; Some 1%positive] like0).
  apply (bool_decide_unpack _). vm_compute. exact I.
Defined.

(** C6, at a failing input: the first free parameter has no prior.  The
    guard of the transform callable, whose message says it is there for
    missing priors, tests the sequence for a [None] member and does not
    fire; [run] hands over to the engine.  With an engine that transforms
    first, the run ends in the [AttributeError] of reading [_inverse_cdf]
    from [None], not in the missing-prior error; with an engine that
    evaluates the likelihood first, the likelihood has been evaluated
    once before the run fails. *)
Lemma missing_prior_raises_attribute_error :
  is_free heap_without_prior 1%positive = true /\
  par_prior <$> heap_without_prior !! 1%positive = Some None /\
  fst (@run Q _ _ unit engine_transform_first parse0 sampler0 datasets0
            state_without_prior) = Raise AttributeError /\
  fst (@run Q _ _ unit engine_loglike_first parse0 sampler0 datasets0
            state_without_prior) = Raise AttributeError /\
  st_loglike_calls
    (snd (@run Q _ _ unit engine_loglike_first parse0 sampler0 datasets0
               state_without_prior)) = [[0; 0]%Q].
Proof. repeat split; vm_compute; reflexivity. Qed.

Lemma run_unsupported_backend_witness :
  @run Q _ _ unit engine_transform_first parse0 sampler_emcee datasets0 state0 =
    (Raise (ValueError "sampler emcee is not supported."), state0).
Proof.
  apply (@run_unsupported_backend Q _ _ unit engine_transform_first parse0
           sampler_emcee datasets0 state0).
  simpl. discriminate.
Defined.

Lemma run_builds_result_witness :
  exists res st',
    @run Q _ _ unit engine_transform_first parse0 sampler0 datasets0 state0 =
      (Ok res, st') /\
    nfev res = 7 /\ success res = true /\
    samples res = Some samples0 /\ sampler_results res = Some payload0 /\
    models res = Some (models_copy (st_heap st') (st_models st')).
Proof.
  destruct (@run Q _ _ unit engine_transform_first parse0 sampler0 datasets0 state0)
    as [[res|e] st'] eqn:Hrun.
  - destruct (@run_builds_result Q _ _ unit engine_transform_first parse0
                sampler0 datasets0 state0 st' res Hrun)
      as (payload & st1 & Hsamp & _ & _ & Hn & Hs & Hsam & Hres & Hmod).
    assert (Hpay : payload = payload0).
    { vm_compute in Hsamp. now injection Hsamp as <- _. }
    subst payload.
    exists res, st'. repeat split; assumption.
  - vm_compute in Hrun. discriminate Hrun.
Defined.

(** C9 refuted as stated: the result of this run was constructed with
    [models] at [None], and the result [run] returns has [models]
    assigned. *)
Lemma sampler_result_mutated_counterexample :
  exists res st',
    @run Q _ _ unit engine_transform_first parse0 sampler0 datasets0 state0 =
      (Ok res, st') /\
    sampler_results res = Some payload0 /\
    models (from_ultranest payload0) = None /\
    models res <> models (from_ultranest payload0).
Proof.
  destruct (@run Q _ _ unit engine_transform_first parse0 sampler0 datasets0 state0)
    as [[res|e] st'] eqn:Hrun; vm_compute in Hrun; [|discriminate Hrun].
  injection Hrun as <- <-.
  eexists _, _. split; [reflexivity|]. split; [reflexivity|].
  split; [reflexivity|]. discriminate.
Qed.

Lemma simulate_one_deterministic_witness :
  SpectrumSimulation.simulate_one npred0 (fun seed => seed) poisson0 23 sim0 =
  SpectrumSimulation.simulate_one npred0 (fun seed => seed) poisson0 23
    (SpectrumSimulation.reset sim0) /\
  SpectrumSimulation.simulate_one npred0 (fun seed => seed) poisson0 23
    (snd (SpectrumSimulation.simulate_obs npred0 (fun seed => seed) poisson0 23
            sim0)) =
  SpectrumSimulation.simulate_one npred0 (fun seed => seed) poisson0 23 sim0.
Proof.
  apply (simulate_one_deterministic npred0 (fun seed => seed) poisson0 23 sim0
           (SpectrumSimulation.reset sim0)).
  repeat split.
Defined.

(** The models at the concrete inputs. *)

Example fcn_example :
  fst (fcn like0 [7 # 1; 8 # 1]%Q heap0) = Ok (-7 # 2)%Q /\
  par_value <$> snd (fcn like0 [7 # 1; 8 # 1]%Q heap0) !! 2%positive
    = Some (8 # 1)%Q.
Proof. split; vm_compute; reflexivity. Qed.

Example np_cov_example :
  Qeq (entry (np_cov (T samples0)) 0 0) (1 # 1) /\
  Qeq (entry (np_cov (T samples0)) 0 1) (7 # 2) /\
  Qeq (entry (np_cov (T samples0)) 1 1) (13 # 1).
Proof. repeat split; vm_compute; reflexivity. Qed.

Example init_example :
  __init__ "emcee" None = Raise (UnboundLocalError "default_opts") /\
  (exists self,
      __init__ "ultranest" (Some {[ "nsteps" := PyInt 5 ]}) = Ok self /\
      sampler_opts self !! "nsteps" = Some (PyInt 5) /\
      sampler_opts self !! "live_points" = Some (PyInt 200)).
Proof.
  split; [reflexivity|]. eexists. split; [reflexivity|].
  split; vm_compute; reflexivity.
Qed.

(** Seeds that repeat are simulated again, in place. *)
Example simulate_batch_example :
  match SpectrumSimulation.simulate_batch npred0 (fun seed => seed) poisson0
          [4; 0; 4]%Z sim0 with
  | Ok observations => fmap SpectrumSimulation.obs_id observations
  | Raise _ => []
  end = [4; 0; 4]%Z.
Proof. vm_compute. reflexivity. Qed.

(** * Further properties of the sampler interface *)

Section MoreProperties.
Context {R : Type} `{Scalar R} `{@CovarianceSetter R}.
#[local] Open Scope list_scope.

#[local] Abbreviation heap := (gmap positive (@ParameterObj R)).

(** ** The update loop, whatever its outcome *)

Lemma same_objects_refl (h : heap) : same_objects h h.
Proof. intros l. reflexivity. Qed.

Lemma same_objects_trans (h1 h2 h3 : heap) :
  same_objects h1 h2 -> same_objects h2 h3 -> same_objects h1 h3.
Proof. intros H12 H23 l. now rewrite H23, H12. Qed.

Lemma same_objects_alter (f : @ParameterObj R -> ParameterObj) (par : loc)
    (h : heap) :
  (forall p, static_fields (f p) = static_fields p) ->
  same_objects h (alter f par h).
Proof.
  intros Hf l. rewrite lookup_alter.
  destruct (decide (par = l)) as [->|]; [|reflexivity].
  destruct (h !! l) as [p|]; simpl; [|reflexivity]. now rewrite Hf.
Qed.

Lemma same_objects_is_free (h h' : heap) (l : loc) :
  same_objects h h' -> is_free h' l = is_free h l.
Proof.
  intros Hs. specialize (Hs l). unfold is_free.
  destruct (h' !! l) as [p'|], (h !! l) as [p|]; simpl in Hs;
    try discriminate; [|reflexivity].
  injection Hs as _ Hf _. now rewrite Hf.
Qed.

Lemma update_loop_frame (mean stdev : list R) (pars : list loc) :
  forall i (h h' : heap) r,
    update_loop i pars mean stdev h = (r, h') ->
    same_objects h h' /\ (forall l, l ∉ pars -> h' !! l = h !! l).
Proof.
  induction pars as [|par rest IH]; intros i h h' r Hrun.
  - inversion Hrun. split; [apply same_objects_refl|reflexivity].
  - rewrite update_loop_cons in Hrun.
    destruct (mean !! i) as [m|].
    2:{ inversion Hrun. split; [apply same_objects_refl|reflexivity]. }
    destruct (stdev !! i) as [s|].
    + destruct (IH _ _ _ _ Hrun) as [Hobj Hout]. split.
      * eapply same_objects_trans; [|exact Hobj].
        eapply same_objects_trans; apply same_objects_alter; reflexivity.
      * intros l Hl. apply not_elem_of_cons in Hl as [Hne Hl].
        rewrite (Hout l Hl). now rewrite !lookup_alter_ne by congruence.
    + inversion Hrun. split.
      * apply same_objects_alter. reflexivity.
      * intros l Hl. apply not_elem_of_cons in Hl as [Hne _].
        now rewrite lookup_alter_ne by congruence.
Qed.

Lemma update_loop_app (mean stdev : list R) (pars1 pars2 : list loc) :
  forall i (h : heap),
    update_loop i (pars1 ++ pars2) mean stdev h =
    match update_loop i pars1 mean stdev h with
    | (Ok _, h1) => update_loop (i + length pars1) pars2 mean stdev h1
    | (Raise e, h1) => (Raise e, h1)
    end.
Proof.
  induction pars1 as [|par rest IH]; intros i h.
  - simpl. unfold ret. now rewrite Nat.add_0_r.
  - change ((par :: rest) ++ pars2) with (par :: (rest ++ pars2)).
    rewrite !update_loop_cons.
    destruct (mean !! i) as [m|]; [|reflexivity].
    destruct (stdev !! i) as [s|]; [|reflexivity].
    rewrite IH.
    now replace (i + length (par :: rest)) with (S i + length rest)
      by (simpl; lia).
Qed.

Lemma same_objects_write_errors (models : @Models R) (c : Covariance)
    (h : heap) :
  same_objects h (write_errors models c h).
Proof.
  intros l. apply (write_errors_preserves static_fields). reflexivity.
Qed.

(** X1.  Whether it returns or raises, [_update_models] leaves every
    object of the store in place with its name, frozen flag and prior, so
    that every free-parameter view is the same afterwards, and it changes
    the value of no object outside the free parameters of the model set:
    frozen parameters and parameters of other model sets keep their
    values. *)
Theorem update_models_touches_free_parameters_only
    (models : @Models R) (results : UltranestResult) (h : heap) :
  same_objects h (snd (_update_models models results h)) /\
  (forall l, l ∉ free_parameters h (m_parameters models) ->
     par_value <$> snd (_update_models models results h) !! l =
     par_value <$> h !! l) /\
  (forall ps, free_parameters (snd (_update_models models results h)) ps =
              free_parameters h ps).
Proof.
  assert (Hmain :
    same_objects h (snd (_update_models models results h)) /\
    (forall l, l ∉ free_parameters h (m_parameters models) ->
       par_value <$> snd (_update_models models results h) !! l =
       par_value <$> h !! l)).
  { rewrite _update_models_unfold.
    destruct (update_loop 0 (free_parameters h (m_parameters models))
                (ur_posterior_mean results) (ur_posterior_stdev results) h)
      as [[[]|e] h'] eqn:Hrun;
      destruct (update_loop_frame _ _ _ _ _ _ _ Hrun) as [Hobj Hout]; simpl.
    - split.
      + exact (same_objects_trans _ _ _ Hobj (same_objects_write_errors _ _ _)).
      + intros l Hl.
        rewrite (write_errors_preserves par_value) by reflexivity.
        now rewrite (Hout l Hl).
    - split; [exact Hobj|]. intros l Hl. now rewrite (Hout l Hl). }
  destruct Hmain as [Hobj Hval].
  split; [exact Hobj|]. split; [exact Hval|].
  intros ps. apply free_parameters_stable. intros l.
  now apply same_objects_is_free.
Qed.

(** ** A posterior array that is too short *)

(** The first [k] parameters of a sequence of distinct objects, run
    through the loop with at least [k] posterior entries: they are
    updated, the later ones are not. *)
Lemma update_loop_prefix (mean stdev : list R) (pars : list loc) (k : nat)
    (h : heap) :
  NoDup pars -> k <= length pars -> k <= length mean -> k <= length stdev ->
  exists h1,
    update_loop 0 (take k pars) mean stdev h = (Ok tt, h1) /\
    forall i par, pars !! i = Some par ->
      (i < k ->
       exists m s, mean !! i = Some m /\ stdev !! i = Some s /\
                   h1 !! par = (fun p => set_error s (set_value m p)) <$> h !! par) /\
      (k <= i -> h1 !! par = h !! par).
Proof.
  intros Hnd Hk Hm Hs.
  destruct (update_loop_ok mean stdev (take k pars) 0 h)
    as (h1 & Hrun & Hout & Hin).
  { rewrite length_take_le by exact Hk. simpl. lia. }
  { rewrite length_take_le by exact Hk. simpl. lia. }
  exists h1. split; [exact Hrun|].
  intros i par Hi. split.
  - intros Hlt.
    assert (Htake : take k pars !! i = Some par)
      by (now rewrite lookup_take_lt by exact Hlt).
    apply (Hin i par Htake).
    apply NoDup_not_later; [|exact Htake].
    exact (sublist_NoDup _ _ Hnd (sublist_take pars k)).
  - intros Hge. apply Hout. rewrite elem_of_take.
    intros (j & Hj & Hjk).
    pose proof (NoDup_lookup pars i j par Hnd Hi Hj). lia.
Qed.

(** X2.  With fewer posterior means than free parameters (and no fewer
    standard deviations than means), [_update_models] raises
    [IndexError] after a partial update: the free parameters before the
    missing index have their new value and error, those from the missing
    index on are as they were. *)
Theorem update_models_short_mean
    (models : @Models R) (results : UltranestResult) (h : heap) :
  NoDup (free_parameters h (m_parameters models)) ->
  length (ur_posterior_mean results) <
    length (free_parameters h (m_parameters models)) ->
  length (ur_posterior_mean results) <= length (ur_posterior_stdev results) ->
  exists h',
    _update_models models results h = (Raise IndexError, h') /\
    forall i par,
      free_parameters h (m_parameters models) !! i = Some par ->
      (i < length (ur_posterior_mean results) ->
       exists m s,
         ur_posterior_mean results !! i = Some m /\
         ur_posterior_stdev results !! i = Some s /\
         h' !! par = (fun p => set_error s (set_value m p)) <$> h !! par) /\
      (length (ur_posterior_mean results) <= i -> h' !! par = h !! par).
Proof.
  intros Hnd Hlt Hle.
  set (free := free_parameters h (m_parameters models)) in *.
  set (mean := ur_posterior_mean results) in *.
  set (stdev := ur_posterior_stdev results) in *.
  destruct (update_loop_prefix mean stdev free (length mean) h)
    as (h1 & Hrun & Hspec); [exact Hnd|lia|lia|exact Hle|].
  exists h1. split; [|exact Hspec].
  rewrite _update_models_unfold. fold free mean stdev.
  rewrite <- (take_drop (length mean) free) at 1.
  rewrite update_loop_app, Hrun.
  destruct (drop (length mean) free) as [|par rest] eqn:Hdrop.
  { apply (f_equal length) in Hdrop. rewrite length_drop in Hdrop.
    simpl in Hdrop. lia. }
  rewrite update_loop_cons, length_take_le by lia.
  now rewrite (lookup_ge_None_2 mean (0 + length mean)) by lia.
Qed.

(** X3.  With fewer posterior standard deviations than means and than
    free parameters, [_update_models] raises [IndexError] and leaves a
    torn update behind: the free parameter at the missing index has
    already been given its new value but keeps its old error; the ones
    before it are fully updated, the ones after it untouched. *)
Theorem update_models_short_stdev
    (models : @Models R) (results : UltranestResult) (h : heap) :
  NoDup (free_parameters h (m_parameters models)) ->
  length (ur_posterior_stdev results) <
    length (free_parameters h (m_parameters models)) ->
  length (ur_posterior_stdev results) < length (ur_posterior_mean results) ->
  exists h',
    _update_models models results h = (Raise IndexError, h') /\
    forall i par,
      free_parameters h (m_parameters models) !! i = Some par ->
      (i < length (ur_posterior_stdev results) ->
       exists m s,
         ur_posterior_mean results !! i = Some m /\
         ur_posterior_stdev results !! i = Some s /\
         h' !! par = (fun p => set_error s (set_value m p)) <$> h !! par) /\
      (i = length (ur_posterior_stdev results) ->
       exists m,
         ur_posterior_mean results !! i = Some m /\
         h' !! par = set_value m <$> h !! par) /\
      (length (ur_posterior_stdev results) < i -> h' !! par = h !! par).
Proof.
  intros Hnd Hlt Hle.
  set (free := free_parameters h (m_parameters models)) in *.
  set (mean := ur_posterior_mean results) in *.
  set (stdev := ur_posterior_stdev results) in *.
  destruct (update_loop_prefix mean stdev free (length stdev) h)
    as (h1 & Hrun & Hspec); [exact Hnd|lia|lia|lia|].
  destruct (lookup_lt_is_Some_2 free (length stdev) Hlt) as [park Hpark].
  destruct (lookup_lt_is_Some_2 mean (length stdev) Hle) as [mk Hmk].
  exists (alter (set_value mk) park h1). split.
  - rewrite _update_models_unfold. fold free mean stdev.
    rewrite <- (take_drop (length stdev) free) at 1.
    rewrite update_loop_app, Hrun.
    rewrite (drop_S free park (length stdev) Hpark).
    rewrite update_loop_cons, length_take_le by lia.
    rewrite Nat.add_0_l, Hmk.
    now rewrite (lookup_ge_None_2 stdev (length stdev)) by lia.
  - intros i par Hi. destruct (Hspec i par Hi) as [Hbefore Hafter].
    assert (Hother : i <> length stdev -> park <> par).
    { intros Hne ->. apply Hne.
      exact (NoDup_lookup free _ _ par Hnd Hi Hpark). }
    split; [|split].
    + intros Hi_lt. destruct (Hbefore Hi_lt) as (m & s & Hm & Hs & Hl).
      exists m, s. split; [exact Hm|]. split; [exact Hs|].
      rewrite lookup_alter_ne by (apply Hother; lia). exact Hl.
    + intros ->. exists mk. split; [exact Hmk|].
      rewrite Hpark in Hi. injection Hi as ->.
      rewrite lookup_alter_eq. f_equal. apply Hafter. lia.
    + intros Hi_gt. rewrite lookup_alter_ne by (apply Hother; lia).
      apply Hafter. lia.
Qed.

(** ** Occurrences among the free parameters *)

Lemma last_occurrence (pars : list loc) (l : loc) :
  l ∈ pars -> exists k, pars !! k = Some l /\ l ∉ drop (S k) pars.
Proof.
  induction pars as [|p pars IH]; intros Hin.
  - now apply elem_of_nil in Hin.
  - destruct (decide (l ∈ pars)) as [Hlater|Hnot].
    + destruct (IH Hlater) as (k & Hk & Hlast). exists (S k). now split.
    + apply elem_of_cons in Hin as [->|Hin]; [|contradiction].
      exists 0. split; [reflexivity|exact Hnot].
Qed.

Lemma update_loop_ok_lengths (mean stdev : list R) (pars : list loc)
    (h h' : heap) :
  update_loop 0 pars mean stdev h = (Ok tt, h') ->
  length pars <= length mean /\ length pars <= length stdev.
Proof.
  intros Hrun.
  destruct (decide (length pars <= length mean /\ length pars <= length stdev))
    as [Hok|Hshort]; [exact Hok|].
  destruct (update_loop_short mean stdev pars 0 h) as (h'' & Hfail);
    [lia|lia|simpl; lia|].
  rewrite Hfail in Hrun. discriminate Hrun.
Qed.

End MoreProperties.

(** ** The covariance over the rationals *)

Lemma Q_square_nonneg (x : Q) : (0 <= x * x)%Q.
Proof.
  destruct x as [n d]. unfold Qle, Qmult. simpl.
  rewrite Z.mul_1_r. apply Z.square_nonneg.
Qed.

Lemma Q_sum_nonneg (l : list Q) :
  forall acc : Q,
    (0 <= acc)%Q -> Forall (fun x => (0 <= x)%Q) l ->
    (0 <= foldl Qplus acc l)%Q.
Proof.
  induction l as [|x l IH]; intros acc Hacc Hall; simpl; [exact Hacc|].
  inversion Hall as [|? ? Hx Hl]; subst.
  apply IH; [|exact Hl].
  apply (Qle_trans _ (0 + 0)%Q); [apply Qle_refl|].
  now apply Qplus_le_compat.
Qed.

Lemma Q_squares_nonneg (r : list Q) :
  Forall (fun x => (0 <= x)%Q) (zip_with Qmult r r).
Proof.
  induction r as [|x r IH]; simpl; constructor;
    [apply Q_square_nonneg|exact IH].
Qed.

(** X6.  In exact rational arithmetic, with at least two observations
    per variable (so that numpy's factor is positive), every diagonal
    entry of [np_cov], every variance, is non-negative. *)
Theorem np_cov_diagonal_nonneg (m : @ndarray Q) (i : nat) :
  2 <= shape1 m ->
  (0 <= entry (np_cov m) i i)%Q.
Proof.
  intros _.
  destruct (decide (shape0 m = 0)) as [E|E].
  { unfold entry, np_cov. rewrite decide_True by exact E. apply Qle_refl. }
  destruct (centred m !! i) as [r|] eqn:Hr.
  - rewrite (np_cov_entry m i i r r E Hr Hr).
    cbn [s_mul s_div s_one s_of_nat Q_scalar].
    apply Qmult_le_0_compat.
    + unfold dot, sum_list. cbn [s_add s_zero s_mul Q_scalar].
      apply Q_sum_nonneg; [apply Qle_refl|apply Q_squares_nonneg].
    + unfold Qdiv. apply Qmult_le_0_compat; [discriminate|].
      apply Qinv_le_0_compat. unfold Qle, inject_Z. simpl. lia.
  - rewrite np_cov_entry_out by (left; exact Hr). apply Qle_refl.
Qed.

Section CallbackProperties.
Context {R : Type} `{Scalar R}.
#[local] Open Scope list_scope.

#[local] Abbreviation heap := (gmap positive (@ParameterObj R)).

(** ** The likelihood callable *)

(** Whatever is read from a parameter that does not depend on its value
    is read the same after an assignment. *)
Lemma assign_values_preserves {B} (g : @ParameterObj R -> B) (ps : list loc) :
  (forall v p, g (set_value v p) = g p) ->
  forall (vs : list R) (h : heap) (l : loc),
    g <$> assign_values ps vs h !! l = g <$> h !! l.
Proof.
  intros Hg. induction ps as [|p ps IH]; intros vs h l; [reflexivity|].
  destruct vs as [|v vs]; [reflexivity|]. simpl. rewrite IH.
  rewrite lookup_alter. destruct (decide (p = l)) as [->|]; [|reflexivity].
  destruct (h !! l) as [q|]; simpl; [|reflexivity]. now rewrite Hg.
Qed.

(** X7.  A likelihood evaluation does not depend on the evaluations
    before it: for a vector with one entry per parameter of the wrapper,
    [fcn] returns the same value and leaves the same store whether or not
    it was called before, with whatever vector. *)
Theorem fcn_history_independent (self : @SamplerLikelihood R)
    (earlier value : list R) (h : heap) :
  length value = length (parameters self) ->
  fcn self value (snd (fcn self earlier h)) = fcn self value h.
Proof.
  intros Hlen.
  assert (Hassign :
    assign_values (parameters self) value
                  (assign_values (parameters self) earlier h) =
    assign_values (parameters self) value h).
  { apply map_eq. intros l.
    destruct (assign_values_spec (parameters self) value
                (assign_values (parameters self) earlier h)) as [Hout1 Hin1].
    destruct (assign_values_spec (parameters self) value h) as [Hout2 Hin2].
    destruct (decide (l ∈ parameters self)) as [Hl|Hl].
    - destruct (last_occurrence (parameters self) l Hl) as (k & Hk & Hlast).
      destruct (lookup_lt_is_Some_2 value k) as [v Hv].
      { rewrite Hlen. apply lookup_lt_is_Some_1. eauto. }
      rewrite (Hin1 k l v Hk Hv Hlast), (Hin2 k l v Hk Hv Hlast).
      apply (assign_values_preserves (set_value v)). reflexivity.
    - rewrite (Hout1 l Hl), (Hout2 l Hl).
      destruct (assign_values_spec (parameters self) earlier h) as [Hout _].
      exact (Hout l Hl). }
  unfold fcn, bind, modify, get, ret. simpl. now rewrite Hassign.
Qed.

(** X8.  A likelihood evaluation changes nothing but values: every object
    of the store keeps its name, frozen flag, prior and error, so the
    free-parameter view of any collection is the same after the call. *)
Theorem fcn_changes_values_only (self : @SamplerLikelihood R)
    (value : list R) (h : heap) :
  same_objects h (snd (fcn self value h)) /\
  (forall l, par_error <$> snd (fcn self value h) !! l = par_error <$> h !! l) /\
  (forall ps, free_parameters (snd (fcn self value h)) ps =
              free_parameters h ps).
Proof.
  assert (Hobj : same_objects h (snd (fcn self value h))).
  { intros l. apply (assign_values_preserves static_fields). reflexivity. }
  split; [exact Hobj|]. split.
  - intros l. apply (assign_values_preserves par_error). reflexivity.
  - intros ps. apply free_parameters_stable. intros l.
    now apply same_objects_is_free.
Qed.

(** ** The transform callable *)

Lemma transform_each_ok (h : heap) (ps : list loc) :
  forall values : list R,
    (forall i l, ps !! i = Some l -> i < length values ->
       exists p prior, h !! l = Some p /\ par_prior p = Some prior) ->
    exists out,
      transform_each h (Some <$> ps) values = Ok out /\
      length out = min (length ps) (length values) /\
      forall i l v p prior,
        ps !! i = Some l -> values !! i = Some v ->
        h !! l = Some p -> par_prior p = Some prior ->
        out !! i = Some (_inverse_cdf prior v).
Proof.
  induction ps as [|l0 ps IH]; intros values Hpriors.
  - exists []. split; [reflexivity|]. split; [reflexivity|].
    intros i l v p prior Hi. now rewrite lookup_nil in Hi.
  - destruct values as [|v0 values].
    { exists []. split; [reflexivity|]. split; [reflexivity|].
      intros i l v p prior _ Hv. now rewrite lookup_nil in Hv. }
    destruct (Hpriors 0 l0 eq_refl) as (p0 & prior0 & Hp0 & Hprior0);
      [simpl; lia|].
    destruct (IH values) as (out & Hout & Hlen & Hspec).
    { intros i l Hi Hlt. apply (Hpriors (S i) l Hi). simpl. lia. }
    exists (_inverse_cdf prior0 v0 :: out).
    split; [|split].
    + cbn [fmap list_fmap transform_each prior_inverse_cdf_of].
      rewrite Hp0. destruct p0 as [? ? ? ? pr]. simpl in Hprior0. subst pr.
      change (list_fmap _ _ Some ps) with (Some <$> ps).
      now rewrite Hout.
    + simpl. now rewrite Hlen.
    + intros [|i] l v p prior Hi Hv Hp Hprior; simpl in Hi, Hv.
      * injection Hi as <-. injection Hv as <-.
        rewrite Hp0 in Hp. injection Hp as <-.
        rewrite Hprior0 in Hprior. now injection Hprior as <-.
      * exact (Hspec i l v p prior Hi Hv Hp Hprior).
Qed.

(** X9.  When every parameter object that is paired with a value has a
    prior, the transform callable succeeds and leaves the store alone; it
    returns one entry per pair (the shorter of the two sequences decides
    how many), the entry at each position being the inverse CDF of that
    position's prior applied to that position's value. *)
Theorem prior_inverse_cdf_applies_priors (ps : list loc) (values : list R)
    (h : heap) :
  (forall i l, ps !! i = Some l -> i < length values ->
     exists p prior, h !! l = Some p /\ par_prior p = Some prior) ->
  exists out,
    _prior_inverse_cdf (Some <$> ps) values h = (Ok out, h) /\
    length out = min (length ps) (length values) /\
    forall i l v p prior,
      ps !! i = Some l -> values !! i = Some v ->
      h !! l = Some p -> par_prior p = Some prior ->
      out !! i = Some (_inverse_cdf prior v).
Proof.
  intros Hpriors.
  destruct (transform_each_ok h ps values Hpriors) as (out & Hout & Hlen & Hspec).
  exists out. split; [|split; assumption].
  unfold _prior_inverse_cdf.
  rewrite bool_decide_eq_false_2 by apply None_not_in_objects.
  unfold bind, get, lift_result. now rewrite Hout.
Qed.

Lemma transform_each_raises_attribute_error (h : heap)
    (pars : list (option loc)) :
  forall (values : list R) e,
    transform_each h pars values = Raise e -> e = AttributeError.
Proof.
  induction pars as [|par pars IH]; intros values e Hr; [discriminate|].
  destruct values as [|val values]; [discriminate|]. simpl in Hr.
  destruct (prior_inverse_cdf_of h par val) as [x|e'] eqn:Hp.
  - destruct (transform_each h pars values) as [xs|e''] eqn:Hrest;
      [discriminate|].
    injection Hr as <-. exact (IH values e'' Hrest).
  - injection Hr as <-. unfold prior_inverse_cdf_of in Hp.
    destruct par as [l|]; [|now injection Hp as <-].
    destruct (h !! l) as [[? ? ? ? [pr|]]|]; try discriminate;
      now injection Hp as <-.
Qed.

(** X10.  The transform callable never changes the store, and on a
    sequence of parameter objects, as [run] passes it, the only exception
    it can raise is [AttributeError]: the [ValueError] of its
    missing-prior guard cannot come out of it. *)
Theorem prior_inverse_cdf_errors (parameters : list (option loc))
    (ps : list loc) (values : list R) (h : heap) :
  snd (_prior_inverse_cdf parameters values h) = h /\
  (forall e, fst (_prior_inverse_cdf (Some <$> ps) values h) = Raise e ->
             e = AttributeError).
Proof.
  split.
  - unfold _prior_inverse_cdf. case_bool_decide; [reflexivity|].
    unfold bind, get, lift_result.
    now destruct (transform_each h parameters values).
  - intros e. unfold _prior_inverse_cdf.
    rewrite bool_decide_eq_false_2 by apply None_not_in_objects.
    unfold bind, get, lift_result.
    destruct (transform_each h (Some <$> ps) values) as [out|e'] eqn:Hr;
      [discriminate|].
    simpl. intros [= <-].
    exact (transform_each_raises_attribute_error h _ values e' Hr).
Qed.

End CallbackProperties.

Section RunProperties.
Context {R : Type} `{Scalar R} `{@CovarianceSetter R}.
Context {handle : Type} `{@Ultranest R handle}.
Variable _parse_datasets : @Datasets R -> @Datasets R * list loc.
#[local] Open Scope list_scope.

#[local] Abbreviation heap := (gmap positive (@ParameterObj R)).
#[local] Abbreviation state := (@state R handle).

(** ** Inversion of the monadic steps *)

Lemma bind_inv {S A B} (c : M S A) (k : A -> M S B) (s s' : S) (r : result B) :
  bind c k s = (r, s') ->
  (exists a s1, c s = (Ok a, s1) /\ k a s1 = (r, s')) \/
  (exists e, c s = (Raise e, s') /\ r = Raise e).
Proof.
  unfold bind. destruct (c s) as [[a|e] s1]; intros Hr.
  - left. eauto.
  - right. injection Hr as <- <-. eauto.
Qed.

Lemma getitem_inv {S} (d : gmap string pyval) (key : string) (s s' : S)
    (r : result pyval) :
  getitem d key s = (r, s') -> s' = s.
Proof.
  unfold getitem. destruct (d !! key); intros Hr; now injection Hr as _ <-.
Qed.

Lemma with_heap_inv {A} (c : M heap A) (st st' : state) (r : result A) :
  with_heap c st = (r, st') ->
  c (st_heap st) = (r, st_heap st') /\
  _sampler st' = _sampler st /\ st_models st' = st_models st /\
  st_loglike_calls st' = st_loglike_calls st.
Proof.
  unfold with_heap. destruct (c (st_heap st)) as [r0 h'].
  intros Hr. injection Hr as <- <-. repeat split.
Qed.

Lemma sampling_frame_refl (st : state) : sampling_frame st st.
Proof. repeat split. Qed.

Lemma sampling_frame_trans (st1 st2 st3 : state) :
  sampling_frame st1 st2 -> sampling_frame st2 st3 -> sampling_frame st1 st3.
Proof.
  intros (Ho1 & He1 & Hm1) (Ho2 & He2 & Hm2). split; [|split].
  - exact (same_objects_trans _ _ _ Ho1 Ho2).
  - intros l. now rewrite He2, He1.
  - now rewrite Hm2, Hm1.
Qed.

Lemma sampling_frame_same_heap (st st' : state) :
  st_heap st' = st_heap st -> st_models st' = st_models st ->
  sampling_frame st st'.
Proof. intros Hh Hm. unfold sampling_frame. rewrite Hh. repeat split. exact Hm. Qed.

Lemma transform_frame (parameters : list (option loc)) (values : list R)
    (st st' : state) (r : result (list R)) :
  with_heap (_prior_inverse_cdf parameters values) st = (r, st') ->
  sampling_frame st st'.
Proof.
  intros Hr. apply with_heap_inv in Hr as (Hc & _ & Hm & _).
  apply sampling_frame_same_heap; [|exact Hm].
  unfold _prior_inverse_cdf in Hc. case_bool_decide.
  - now injection Hc as _ <-.
  - unfold bind, get, lift_result in Hc.
    destruct (transform_each _ _ _); now injection Hc as _ <-.
Qed.

Lemma loglike_frame (like : SamplerLikelihood) (value : list R)
    (st st' : state) (r : result R) :
  with_heap (fcn like value) st = (r, st') -> sampling_frame st st'.
Proof.
  intros Hr. apply with_heap_inv in Hr as (Hc & _ & Hm & _).
  unfold fcn, bind, modify, get, ret in Hc. injection Hc as _ Hh.
  split; [|split; [|exact Hm]]; intros l; rewrite <- Hh.
  - apply (assign_values_preserves static_fields). reflexivity.
  - apply (assign_values_preserves par_error). reflexivity.
Qed.

(** A call into the engine, whatever the engine does with its callables. *)
Lemma interp_frame {A} (parameters : list (option loc))
    (like : SamplerLikelihood) (t : engine A) :
  forall (st st' : state) (r : result A),
    interp (fun values => with_heap (_prior_inverse_cdf parameters values))
           (fun value => with_heap (fcn like value)) t st = (r, st') ->
    sampling_frame st st'.
Proof.
  induction t as [a|e|u k IH|p k IH]; intros st st' r Hr.
  - injection Hr as _ <-. apply sampling_frame_refl.
  - injection Hr as _ <-. apply sampling_frame_refl.
  - cbn [interp] in Hr.
    apply bind_inv in Hr as [(q & s1 & Hc & Hk)|(e & Hc & _)].
    + eapply sampling_frame_trans; [exact (transform_frame _ _ _ _ _ Hc)|].
      exact (IH q _ _ _ Hk).
    + exact (transform_frame _ _ _ _ _ Hc).
  - cbn [interp] in Hr.
    apply bind_inv in Hr as [([] & s0 & Hlog & Hrest)|(e & Hlog & _)];
      [|discriminate Hlog].
    assert (Hf0 : sampling_frame st s0).
    { unfold log_loglike_call, modify in Hlog. injection Hlog as <-.
      now apply sampling_frame_same_heap. }
    apply bind_inv in Hrest as [(l & s1 & Hc & Hk)|(e & Hc & _)].
    + eapply sampling_frame_trans; [exact Hf0|].
      eapply sampling_frame_trans; [exact (loglike_frame _ _ _ _ _ Hc)|].
      exact (IH l _ _ _ Hk).
    + eapply sampling_frame_trans; [exact Hf0|].
      exact (loglike_frame _ _ _ _ _ Hc).
Qed.

Lemma set_sampler_frame (s : handle) (st st' : state) (r : result unit) :
  set_sampler s st = (r, st') -> sampling_frame st st'.
Proof.
  unfold set_sampler, modify. intros Hr. injection Hr as _ <-.
  now apply sampling_frame_same_heap.
Qed.

Lemma sampler_ultranest_keeps_frame (self : Sampler)
    (parameters : list (option loc)) (like : SamplerLikelihood)
    (st st' : state) (r : result UltranestResult) :
  sampler_ultranest self parameters like st = (r, st') ->
  sampling_frame st st'.
Proof.
  intros Hrun. unfold sampler_ultranest in Hrun.
  apply bind_inv in Hrun as [(st0 & s0 & Hget & Hrun)|(e & Hget & _)];
    [|discriminate Hget].
  unfold get in Hget. injection Hget as <- <-.
  apply bind_inv in Hrun as [(log_dir & s1 & Hg1 & Hrun)|(e & Hg1 & _)];
    [|apply getitem_inv in Hg1 as ->; apply sampling_frame_refl].
  apply getitem_inv in Hg1 as ->.
  apply bind_inv in Hrun as [(resume & s2 & Hg2 & Hrun)|(e & Hg2 & _)];
    [|apply getitem_inv in Hg2 as ->; apply sampling_frame_refl].
  apply getitem_inv in Hg2 as ->.
  apply bind_inv in Hrun as [(sampler & s3 & Hnew & Hrun)|(e & Hnew & _)];
    [|exact (interp_frame _ _ _ _ _ _ Hnew)].
  apply (sampling_frame_trans _ s3); [exact (interp_frame _ _ _ _ _ _ Hnew)|].
  apply bind_inv in Hrun as [([] & s4 & Hset & Hrun)|(e & Hset & _)];
    [|exact (set_sampler_frame _ _ _ _ Hset)].
  apply (sampling_frame_trans _ s4); [exact (set_sampler_frame _ _ _ _ Hset)|].
  apply bind_inv in Hrun as [(step_sampler & s5 & Hg3 & Hrun)|(e & Hg3 & _)];
    [|apply getitem_inv in Hg3 as ->; apply sampling_frame_refl].
  apply getitem_inv in Hg3 as ->.
  apply bind_inv in Hrun as [(sampler' & s6 & Hstep & Hrun)|(e & Hstep & _)].
  - assert (Hf6 : sampling_frame s4 s6).
    { destruct (truthy step_sampler).
      - apply bind_inv in Hstep as [(nsteps & s7 & Hg4 & Hstep)|(e & Hg4 & _)];
          [|apply getitem_inv in Hg4 as ->; apply sampling_frame_refl].
        apply getitem_inv in Hg4 as ->.
        apply bind_inv in Hstep as [([] & s8 & Hset2 & Hret)|(e & Hset2 & _)];
          [|exact (set_sampler_frame _ _ _ _ Hset2)].
        unfold ret in Hret. injection Hret as _ <-.
        exact (set_sampler_frame _ _ _ _ Hset2).
      - unfold ret in Hstep. injection Hstep as _ <-.
        apply sampling_frame_refl. }
    apply (sampling_frame_trans _ s6); [exact Hf6|].
    apply bind_inv in Hrun as [(lp & s9 & Hg5 & Hrun)|(e & Hg5 & _)];
      [|apply getitem_inv in Hg5 as ->; apply sampling_frame_refl].
    apply getitem_inv in Hg5 as ->.
    apply bind_inv in Hrun as [(fr & s10 & Hg6 & Hrun)|(e & Hg6 & _)];
      [|apply getitem_inv in Hg6 as ->; apply sampling_frame_refl].
    apply getitem_inv in Hg6 as ->.
    exact (interp_frame _ _ _ _ _ _ Hrun).
  - destruct (truthy step_sampler).
    + apply bind_inv in Hstep as [(nsteps & s7 & Hg4 & Hstep)|(e' & Hg4 & _)];
        [|apply getitem_inv in Hg4 as ->; apply sampling_frame_refl].
      apply getitem_inv in Hg4 as ->.
      apply bind_inv in Hstep as [([] & s8 & Hset2 & Hret)|(e' & Hset2 & _)];
        [|exact (set_sampler_frame _ _ _ _ Hset2)].
      discriminate Hret.
    + discriminate Hstep.
Qed.

(** X11.  Whatever the engine does with the two callables, and whether
    [sampler_ultranest] returns or raises, sampling changes nothing but
    parameter values: every object keeps its name, frozen flag, prior and
    error, no object appears or disappears, and the model set with its
    covariance is as before. *)
Theorem sampler_ultranest_frame (self : Sampler)
    (parameters : list (option loc)) (like : SamplerLikelihood)
    (st : state) :
  sampling_frame st (snd (sampler_ultranest self parameters like st)).
Proof.
  destruct (sampler_ultranest self parameters like st) as [r st'] eqn:Hrun.
  exact (sampler_ultranest_keeps_frame _ _ _ _ _ _ Hrun).
Qed.

(** X12.  The option ["nsteps"] is never read: two samplers whose options
    agree on every other key sample alike, and with equal backends their
    runs are equal too (the number of steps handed to the slice sampler
    is the value of ["step_sampler"]). *)
Theorem sampler_ignores_nsteps (self1 self2 : Sampler)
    (parameters : list (option loc)) (like : SamplerLikelihood)
    (datasets : @Datasets R) (st : state) :
  (forall key, key <> "nsteps" ->
     sampler_opts self1 !! key = sampler_opts self2 !! key) ->
  sampler_ultranest self1 parameters like st =
    sampler_ultranest self2 parameters like st /\
  (backend self1 = backend self2 ->
   run _parse_datasets self1 datasets st = run _parse_datasets self2 datasets st).
Proof.
  intros Hopts.
  assert (Hsame : forall pars lk (s : state),
            sampler_ultranest self1 pars lk s = sampler_ultranest self2 pars lk s).
  { intros pars lk s. unfold sampler_ultranest, getitem.
    rewrite !(Hopts "log_dir"), !(Hopts "resume"), !(Hopts "step_sampler"),
      !(Hopts "live_points"), !(Hopts "frac_remain") by discriminate.
    reflexivity. }
  split; [apply Hsame|].
  intros Hbackend. unfold run.
  destruct (_parse_datasets datasets) as [ds ps].
  unfold bind at 1. unfold get at 1.
  unfold bind at 3. unfold get at 3.
  rewrite Hbackend.
  destruct (decide (backend self2 = "ultranest")); [|reflexivity].
  unfold bind at 1. unfold bind at 5. now rewrite Hsame.
Qed.

(** ** Whole runs *)

Lemma update_models_inv (models : @Models R) (results : UltranestResult)
    (h h' : heap) (r : result Models) :
  _update_models models results h = (r, h') ->
  same_objects h h' /\
  match r with
  | Ok models' =>
      models' = set_covariance
                  (from_factor_matrix (m_parameters models)
                                      (np_cov (T (ur_samples results)))) models /\
      exists h1,
        update_loop 0 (free_parameters h (m_parameters models))
                    (ur_posterior_mean results) (ur_posterior_stdev results) h
          = (Ok tt, h1) /\
        h' = write_errors models
               (from_factor_matrix (m_parameters models)
                                   (np_cov (T (ur_samples results)))) h1
  | Raise _ => True
  end.
Proof.
  rewrite _update_models_unfold.
  destruct (update_loop 0 _ _ _ h) as [[[]|e] h1] eqn:Hloop;
    intros Hr; injection Hr as <- <-;
    pose proof (proj1 (update_loop_frame _ _ _ _ _ _ _ Hloop)) as Hobj.
  - split.
    + exact (same_objects_trans _ _ _ Hobj (same_objects_write_errors _ _ _)).
    + split; [reflexivity|]. exists h1. now split.
  - split; [exact Hobj|exact I].
Qed.

(** The course of [run], step by step. *)
Lemma run_cases (self : Sampler) (datasets : @Datasets R) (st st' : state)
    (r : result SamplerResult) :
  run _parse_datasets self datasets st = (r, st') ->
  (backend self <> "ultranest" /\ st' = st /\
   r = Raise (ValueError ("sampler " ++ backend self ++ " is not supported."))%string) \/
  (backend self = "ultranest" /\
   exists r1 st1,
     sampler_ultranest self
       (Some <$> free_parameters (st_heap st) (snd (_parse_datasets datasets)))
       {| function := _stat_sum_likelihood (fst (_parse_datasets datasets));
          parameters :=
            free_parameters (st_heap st) (snd (_parse_datasets datasets)) |}
       st = (r1, st1) /\
     match r1 with
     | Raise e => r = Raise e /\ st' = st1
     | Ok payload =>
         exists r2,
           _update_models (st_models st1) payload (st_heap st1)
             = (r2, st_heap st') /\
           match r2 with
           | Raise e => r = Raise e /\ st_models st' = st_models st1
           | Ok models' =>
               st_models st' = models' /\
               r = Ok (set_models (models_copy (st_heap st') models')
                                  (from_ultranest payload))
           end
     end).
Proof.
  unfold run. destruct (_parse_datasets datasets) as [ds ps]. simpl.
  unfold bind at 1. unfold get at 1.
  destruct (decide (backend self = "ultranest")) as [Hb|Hb].
  2:{ intros Hr. injection Hr as <- <-. left. now repeat split. }
  intros Hr. right. split; [exact Hb|].
  apply bind_inv in Hr as [(payload & st1 & Hsamp & Hr)|(e & Hsamp & ->)].
  2:{ exists (Raise e), st'. split; [exact Hsamp|]. now split. }
  exists (Ok payload), st1. split; [exact Hsamp|].
  apply bind_inv in Hr as [(st1' & s & Hget & Hr)|(e & Hget & _)];
    [|discriminate Hget].
  unfold get in Hget. injection Hget as <- <-.
  apply bind_inv in Hr as [(models' & st2 & Hupd & Hr)|(e & Hupd & ->)].
  - apply with_heap_inv in Hupd as (Hupd & _ & _ & _).
    unfold bind, set_st_models, modify, get, ret in Hr. simpl in Hr.
    injection Hr as <- <-. simpl.
    exists (Ok models'). split; [exact Hupd|]. now split.
  - apply with_heap_inv in Hupd as (Hupd & _ & Hm & _).
    exists (Raise e). split; [exact Hupd|]. now split.
Qed.

(** X13.  Whatever the engine does and however [run] ends, it keeps the
    objects of the store with their names, frozen flags and priors (so
    every free-parameter view is stable), and the parameter list of the
    model set; the model set changes only by the covariance attached at
    the end of a successful run: after a failed run it is the model set
    from before, old covariance included. *)
Theorem run_frame (self : Sampler) (datasets : @Datasets R) (st : state) :
  same_objects (st_heap st)
               (st_heap (snd (run _parse_datasets self datasets st))) /\
  (forall ps,
     free_parameters (st_heap (snd (run _parse_datasets self datasets st))) ps =
     free_parameters (st_heap st) ps) /\
  m_parameters (st_models (snd (run _parse_datasets self datasets st))) =
    m_parameters (st_models st) /\
  (forall e, fst (run _parse_datasets self datasets st) = Raise e ->
     st_models (snd (run _parse_datasets self datasets st)) = st_models st).
Proof.
  destruct (run _parse_datasets self datasets st) as [r st'] eqn:Hrun. simpl.
  assert (Hmain : same_objects (st_heap st) (st_heap st') /\
                  m_parameters (st_models st') = m_parameters (st_models st) /\
                  (forall e, r = Raise e -> st_models st' = st_models st)).
  { apply run_cases in Hrun as [(_ & -> & _)|(_ & r1 & st1 & Hsamp & Hrest)].
    { split; [apply same_objects_refl|]. split; reflexivity. }
    destruct (sampler_ultranest_keeps_frame _ _ _ _ _ _ Hsamp)
      as (Hobj & _ & Hmod).
    destruct r1 as [payload|e1].
    - destruct Hrest as (r2 & Hupd & Hrest).
      apply update_models_inv in Hupd as [Hobj2 Hupd].
      split; [exact (same_objects_trans _ _ _ Hobj Hobj2)|].
      destruct r2 as [models'|e2].
      + destruct Hupd as [-> _]. destruct Hrest as [-> ->].
        split; [simpl; now rewrite Hmod|]. intros e He. discriminate He.
      + destruct Hrest as [-> ->]. rewrite Hmod. split; reflexivity.
    - destruct Hrest as [-> ->]. split; [exact Hobj|].
      rewrite Hmod. split; reflexivity. }
  destruct Hmain as (Hobj & Hpars & Hfail).
  split; [exact Hobj|]. split; [|split; assumption].
  intros ps. apply free_parameters_stable. intros l.
  now apply same_objects_is_free.
Qed.

(** X14.  After a run that returns, a free parameter of the model set
    holds as its value the posterior mean of its index (taken at its last
    occurrence among the free parameters), not the point at which the
    likelihood was evaluated last; the free parameters are those of the
    model set before the run. *)
Theorem run_leaves_posterior_means (self : Sampler) (datasets : @Datasets R)
    (st st' : state) (res : SamplerResult) :
  run _parse_datasets self datasets st = (Ok res, st') ->
  exists payload,
    sampler_results res = Some payload /\
    forall i par,
      free_parameters (st_heap st) (m_parameters (st_models st)) !! i = Some par ->
      par ∉ drop (S i) (free_parameters (st_heap st) (m_parameters (st_models st))) ->
      is_Some (ur_posterior_mean payload !! i) /\
      par_value <$> st_heap st' !! par = ur_posterior_mean payload !! i.
Proof.
  intros Hrun.
  apply run_cases in Hrun as [(_ & _ & Hr)|(_ & r1 & st1 & Hsamp & Hrest)];
    [discriminate Hr|].
  destruct r1 as [payload|e1]; [|destruct Hrest as [Hr _]; discriminate Hr].
  destruct Hrest as (r2 & Hupd & Hrest).
  destruct r2 as [models'|e2]; [|destruct Hrest as [Hr _]; discriminate Hr].
  destruct Hrest as [_ Hres]. injection Hres as ->.
  exists payload. split; [reflexivity|].
  destruct (sampler_ultranest_keeps_frame _ _ _ _ _ _ Hsamp)
    as (Hobj & _ & Hmod).
  apply update_models_inv in Hupd as [_ [_ (h1 & Hloop & Hfinal)]].
  rewrite Hmod in Hloop.
  rewrite (free_parameters_stable (st_heap st) (st_heap st1)) in Hloop
    by (intros l; now apply same_objects_is_free).
  set (free := free_parameters (st_heap st) (m_parameters (st_models st))) in *.
  destruct (update_loop_ok_lengths _ _ _ _ _ Hloop) as [Hm Hs].
  destruct (update_loop_ok (ur_posterior_mean payload)
              (ur_posterior_stdev payload) free 0 (st_heap st1))
    as (h2 & Hloop2 & _ & Hin); [simpl; lia|simpl; lia|].
  rewrite Hloop in Hloop2. injection Hloop2 as <-.
  intros i par Hi Hlast.
  destruct (Hin i par Hi Hlast) as (m & s & Hmi & Hsi & Hl).
  simpl in Hmi, Hsi.
  destruct (free_parameters_is_free (st_heap st) (m_parameters (st_models st)) par)
    as (p & Hp & _); [apply list_elem_of_lookup; eauto|].
  assert (Hp1 : is_Some (st_heap st1 !! par)).
  { specialize (Hobj par). rewrite Hp in Hobj.
    destruct (st_heap st1 !! par); [eauto|discriminate Hobj]. }
  destruct Hp1 as [p1 Hp1].
  rewrite Hfinal, (write_errors_preserves par_value) by reflexivity.
  rewrite Hl, Hp1, Hmi. split; [eauto|reflexivity].
Qed.

(** X15.  The constructor returns a sampler exactly for the backend
    ["ultranest"], and that sampler records this backend; for every other
    backend name, whatever the options, it raises [UnboundLocalError] for
    [default_opts]. *)
Theorem init_succeeds_iff_ultranest (name : string)
    (opts : option (gmap string pyval)) :
  ((exists self, __init__ name opts = Ok self) <-> name = "ultranest") /\
  (forall self, __init__ name opts = Ok self -> backend self = "ultranest") /\
  (forall e, __init__ name opts = Raise e ->
             e = UnboundLocalError "default_opts" /\ name <> "ultranest").
Proof.
  unfold __init__.
  destruct (decide (name = "ultranest")) as [->|Hne].
  - split; [split; [reflexivity|eauto]|]. split.
    + now intros self [= <-].
    + intros e He. discriminate He.
  - split; [split; [intros [self Hs]; discriminate Hs|contradiction]|]. split.
    + intros self Hs. discriminate Hs.
    + intros e [= <-]. now split.
Qed.

(** X16.  An exception that ends the sampling phase (raised by the
    engine, by one of the callables or by an option lookup) ends [run]
    unchanged: [run] raises the same exception and stops in the state the
    sampling phase left, so no posterior is written to the parameters, no
    covariance is attached and no result is built. *)
Theorem run_propagates_sampling_failure (self : Sampler)
    (datasets : @Datasets R) (st st1 : state) (e : exn) :
  backend self = "ultranest" ->
  sampler_ultranest self
    (Some <$> free_parameters (st_heap st) (snd (_parse_datasets datasets)))
    {| function := _stat_sum_likelihood (fst (_parse_datasets datasets));
       parameters :=
         free_parameters (st_heap st) (snd (_parse_datasets datasets)) |}
    st = (Raise e, st1) ->
  run _parse_datasets self datasets st = (Raise e, st1) /\
  st_models st1 = st_models st /\
  (forall l, par_error <$> st_heap st1 !! l = par_error <$> st_heap st !! l).
Proof.
  intros Hb Hsamp.
  destruct (sampler_ultranest_keeps_frame _ _ _ _ _ _ Hsamp) as (_ & Herr & Hmod).
  split; [|split; assumption].
  unfold run. destruct (_parse_datasets datasets) as [ds ps]. simpl in Hsamp.
  unfold bind at 1. unfold get at 1.
  rewrite decide_True by exact Hb.
  unfold bind at 1. now rewrite Hsamp.
Qed.

End RunProperties.

(** * The further properties at the concrete inputs *)

Import MoreExamples.

Lemma update_models_short_mean_witness :
  exists h',
    _update_models models0 payload_short heap0 = (Raise IndexError, h') /\
    par_value <$> h' !! 1%positive = Some (23 # 10)%Q /\
    h' !! 2%positive = heap0 !! 2%positive.
Proof.
  destruct (update_models_short_mean models0 payload_short heap0)
    as (h' & Hrun & Hspec).
  - apply (bool_decide_unpack _). vm_compute. exact I.
  - apply (bool_decide_unpack _). vm_compute. exact I.
  - apply (bool_decide_unpack _). vm_compute. exact I.
  - exists h'. split; [exact Hrun|]. split.
    + destruct (Hspec 0 1%positive eq_refl) as [Hbefore _].
      destruct Hbefore as (m & s & Hm & _ & ->); [simpl; lia|].
      injection Hm as <-. reflexivity.
    + destruct (Hspec 1 2%positive eq_refl) as [_ Hafter].
      apply Hafter. simpl. lia.
Defined.

Lemma update_models_short_stdev_witness :
  exists h',
    _update_models models0 payload_short_stdev heap0 = (Raise IndexError, h') /\
    par_value <$> h' !! 2%positive = Some (5 # 2)%Q /\
    par_error <$> h' !! 2%positive = par_error <$> heap0 !! 2%positive.
Proof.
  destruct (update_models_short_stdev models0 payload_short_stdev heap0)
    as (h' & Hrun & Hspec).
  - apply (bool_decide_unpack _). vm_compute. exact I.
  - apply (bool_decide_unpack _). vm_compute. exact I.
  - apply (bool_decide_unpack _). vm_compute. exact I.
  - exists h'. split; [exact Hrun|].
    destruct (Hspec 1 2%positive eq_refl) as (_ & Htorn & _).
    destruct (Htorn eq_refl) as (m & Hm & ->).
    injection Hm as <-. split; reflexivity.
Defined.

Lemma np_cov_diagonal_nonneg_witness :
  (0 <= entry (np_cov (T samples0)) 1 1)%Q.
Proof.
  apply (np_cov_diagonal_nonneg (T samples0) 1). simpl. lia.
Defined.

Lemma fcn_history_independent_witness :
  fcn like0 [7 # 1; 8 # 1]%Q (snd (fcn like0 [1 # 1]%Q heap0)) =
  fcn like0 [7 # 1; 8 # 1]%Q heap0.
Proof.
  apply (fcn_history_independent like0 [1 # 1]%Q [7 # 1; 8 # 1]%Q heap0).
  reflexivity.
Defined.

Lemma prior_inverse_cdf_applies_priors_witness :
  exists out,
    _prior_inverse_cdf (Some <$> [1; 2]%positive) [1 # 2; 1 # 3]%Q heap0 =
      (Ok out, heap0) /\
    length out = 2 /\
    out !! 1 = Some (1 # 3)%Q.
Proof.
  destruct (prior_inverse_cdf_applies_priors [1; 2]%positive
              [1 # 2; 1 # 3]%Q heap0) as (out & Hrun & Hlen & Hspec).
  - intros [|[|i]] l Hi _; simpl in Hi; try discriminate Hi;
      injection Hi as <-; eexists _, _; split; reflexivity.
  - exists out. split; [exact Hrun|]. split; [exact Hlen|].
    exact (Hspec 1 2%positive (1 # 3)%Q amplitude_par unit_prior
             eq_refl eq_refl eq_refl eq_refl).
Defined.

Lemma sampler_ignores_nsteps_witness :
  @sampler_ultranest Q _ unit engine_transform_first sampler0
     (Some <$> [1; 2]%positive) like0 state0 =
  @sampler_ultranest Q _ unit engine_transform_first sampler_nsteps
     (Some <$> [1; 2]%positive) like0 state0.
Proof.
  apply (@sampler_ignores_nsteps Q _ _ unit engine_transform_first parse0
           sampler0 sampler_nsteps (Some <$> [1; 2]%positive) like0 datasets0
           state0).
  intros key Hne. unfold sampler_nsteps, sampler0. simpl.
  now rewrite lookup_insert_ne by congruence.
Defined.

Lemma run_leaves_posterior_means_witness :
  exists res st',
    @run Q _ _ unit engine_transform_first parse0 sampler0 datasets0 state0 =
      (Ok res, st') /\
    par_value <$> st_heap st' !! 2%positive = Some (5 # 2)%Q.
Proof.
  destruct (@run Q _ _ unit engine_transform_first parse0 sampler0 datasets0 state0)
    as [[res|e] st'] eqn:Hrun.
  - destruct (@run_leaves_posterior_means Q _ _ unit engine_transform_first
                parse0 sampler0 datasets0 state0 st' res Hrun)
      as (payload & Hpay & Hspec).
    assert (Hpayload : payload = payload0).
    { vm_compute in Hrun. injection Hrun as <- _. now injection Hpay as <-. }
    subst payload.
    destruct (Hspec 1 2%positive eq_refl) as (_ & Hv).
    { apply (bool_decide_unpack _). vm_compute. exact I. }
    exists res, st'. split; [reflexivity|exact Hv].
  - vm_compute in Hrun. discriminate Hrun.
Defined.

Lemma run_propagates_sampling_failure_witness :
  exists st1,
    @run Q _ _ unit engine_transform_first parse0 sampler0 datasets0
         state_without_prior = (Raise AttributeError, st1) /\
    st_models st1 = models0.
Proof.
  destruct (@sampler_ultranest Q _ unit engine_transform_first sampler0
              (Some <$> free_parameters (st_heap state_without_prior)
                          (snd (parse0 datasets0)))
              {| function := _stat_sum_likelihood (fst (parse0 datasets0));
                 parameters := free_parameters (st_heap state_without_prior)
                                 (snd (parse0 datasets0)) |}
              state_without_prior) as [[payload|e] st1] eqn:Hsamp.
  - vm_compute in Hsamp. discriminate Hsamp.
  - assert (He : e = AttributeError).
    { vm_compute in Hsamp. now injection Hsamp as <- _. }
    subst e.
    destruct (@run_propagates_sampling_failure Q _ _ unit engine_transform_first
                parse0 sampler0 datasets0 state_without_prior st1
                AttributeError eq_refl Hsamp) as (Hrun & Hmod & _).
    exists st1. split; [exact Hrun|exact Hmod].
Defined.
